(** * Settlers of Mars: story service, habitat renderer and game panel

    A shallow embedding of the TypeScript sources
    - [src/components/GameUI.tsx]   (the [GameUI] component and the Gemini
      story service: [generateStory], [generateImage], [fetchNextScene]),
    - [src/unnamed/part_000]        (the shared types and the
      [HabitatViewer] component),
    followed by the properties of the design document that concern them.

    Conventions.
    - A JavaScript string is a sequence of UTF-16 code units: [list N].
      Source literals are ASCII and are written [js "..."].
    - A JavaScript number is a binary64 float: [PrimFloat.float].  A number
      read by [JSON.parse] is kept as the literal that denotes it.
    - A JavaScript object used as a record of properties is a [gmap] from
      property names to values.
    - [await]ed backend calls are events of a small program monad whose
      continuation receives the outcome (resolved or rejected). *)

From Stdlib Require Import Ascii String DecimalString Floats.PrimFloat.
From stdpp Require Import base option list strings gmap.

#[local] Set Warnings "-register-all,-inexact-float".
#[local] Open Scope N_scope.

(** ** JavaScript strings *)

Definition ch (a : ascii) : N := N_of_ascii a.

Fixpoint js (s : string) : list N :=
  match s with
  | EmptyString => []
  | String a r => ch a :: js r
  end.

Definition LF : N := 10.
Definition DQUOTE : N := 34.
Definition BACKSLASH : N := 92.

(** WhiteSpace and LineTerminator code points of ECMA-262, the characters
    [String.prototype.trim] removes. *)
Definition js_whitespace : list N :=
  [9; 10; 11; 12; 13; 32; 160; 5760;
   8192; 8193; 8194; 8195; 8196; 8197; 8198; 8199; 8200; 8201; 8202;
   8232; 8233; 8239; 8287; 12288; 65279].

Definition is_js_ws (c : N) : bool := bool_decide (c ∈ js_whitespace).

Fixpoint trimStart (s : list N) : list N :=
  match s with
  | c :: r => if is_js_ws c then trimStart r else s
  | [] => []
  end.

Fixpoint trimEnd (s : list N) : list N :=
  match s with
  | c :: r =>
      match trimEnd r with
      | [] => if is_js_ws c then [] else [c]
      | r' => c :: r'
      end
  | [] => []
  end.

(** [String.prototype.trim] *)
Definition trim (s : list N) : list N := trimEnd (trimStart s).

(** [drop_prefix p s]: the rest of [s] after the literal [p], when [s]
    starts with [p]. *)
Fixpoint drop_prefix (p s : list N) : option (list N) :=
  match p, s with
  | [], _ => Some s
  | a :: p', c :: s' => if a =? c then drop_prefix p' s' else None
  | _ :: _, [] => None
  end.

(** [text.replace(/^```json\n?/, '')]: the pattern is anchored at the start
    of the input, so the only candidate match is at index 0; the optional
    line feed is greedy. *)
Definition replace_fence_open (s : list N) : list N :=
  match drop_prefix (js "```json") s with
  | Some r => match r with
              | c :: r' => if c =? LF then r' else r
              | [] => r
              end
  | None => s
  end.

(** Does the pattern [\n?```$] match the input from its first character on?
    The [$] (no [m] flag) only holds at the end of the input. *)
Definition fence_close_here (s : list N) : bool :=
  bool_decide (s = LF :: js "```") || bool_decide (s = js "```").

(** [text.replace(/\n?```$/, '')]: the pattern is not global, so the leftmost
    match is replaced; a match extends to the end of the input. *)
Fixpoint replace_fence_close (s : list N) : list N :=
  if fence_close_here s then []
  else match s with
       | c :: r => c :: replace_fence_close r
       | [] => []
       end.

(** ** [JSON.parse]

    The JSON grammar of ECMA-404 as a character-level transducer producing
    tokens, and a pushdown automaton over tokens building the value.  Both
    are structurally recursive, so the model of [JSON.parse] is total. *)

Inductive token : Type :=
  | TLBrace | TRBrace | TLBracket | TRBracket | TComma | TColon
  | TString (s : list N)
  | TNumber (lexeme : list N)
  | TTrue | TFalse | TNull.

Inductive keyword : Type := Ktrue | Kfalse | Knull.

Definition keyword_text (k : keyword) : list N :=
  match k with
  | Ktrue => js "true"
  | Kfalse => js "false"
  | Knull => js "null"
  end.

Definition keyword_token (k : keyword) : token :=
  match k with
  | Ktrue => TTrue
  | Kfalse => TFalse
  | Knull => TNull
  end.

Inductive num_state : Type :=
  | NMinus | NZero | NInt | NDot | NFrac | NExp | NExpSign | NExpDigits.

Inductive lex_state : Type :=
  | LTop
  | LStr (acc : list N)
  | LEsc (acc : list N)
  | LUni (acc : list N) (seen : nat) (value : N)
  | LNum (st : num_state) (acc : list N)
  | LKey (k : keyword) (matched : nat).

(** JSON whitespace: tab, line feed, carriage return, space. *)
Definition is_json_ws (c : N) : bool :=
  (c =? 9) || (c =? 10) || (c =? 13) || (c =? 32).

Definition is_digit (c : N) : bool := (48 <=? c) && (c <=? 57).
Definition is_digit19 (c : N) : bool := (49 <=? c) && (c <=? 57).
Definition is_e (c : N) : bool := (c =? ch "e") || (c =? ch "E").

Definition hex_value (c : N) : option N :=
  if (48 <=? c) && (c <=? 57) then Some (c - 48)
  else if (97 <=? c) && (c <=? 102) then Some (c - 87)
  else if (65 <=? c) && (c <=? 70) then Some (c - 55)
  else None.

Definition num_step (st : num_state) (c : N) : option num_state :=
  match st with
  | NMinus => if c =? ch "0" then Some NZero
              else if is_digit19 c then Some NInt else None
  | NZero => if c =? ch "." then Some NDot
             else if is_e c then Some NExp else None
  | NInt => if is_digit c then Some NInt
            else if c =? ch "." then Some NDot
            else if is_e c then Some NExp else None
  | NDot => if is_digit c then Some NFrac else None
  | NFrac => if is_digit c then Some NFrac
             else if is_e c then Some NExp else None
  | NExp => if (c =? ch "+") || (c =? ch "-") then Some NExpSign
            else if is_digit c then Some NExpDigits else None
  | NExpSign => if is_digit c then Some NExpDigits else None
  | NExpDigits => if is_digit c then Some NExpDigits else None
  end.

Definition num_accepting (st : num_state) : bool :=
  match st with
  | NZero | NInt | NFrac | NExpDigits => true
  | _ => false
  end.

Definition step_top (c : N) : option (list token * lex_state) :=
  if is_json_ws c then Some ([], LTop)
  else if c =? ch "{" then Some ([TLBrace], LTop)
  else if c =? ch "}" then Some ([TRBrace], LTop)
  else if c =? ch "[" then Some ([TLBracket], LTop)
  else if c =? ch "]" then Some ([TRBracket], LTop)
  else if c =? ch "," then Some ([TComma], LTop)
  else if c =? ch ":" then Some ([TColon], LTop)
  else if c =? DQUOTE then Some ([], LStr [])
  else if c =? ch "-" then Some ([], LNum NMinus [c])
  else if c =? ch "0" then Some ([], LNum NZero [c])
  else if is_digit19 c then Some ([], LNum NInt [c])
  else if c =? ch "t" then Some ([], LKey Ktrue 1)
  else if c =? ch "f" then Some ([], LKey Kfalse 1)
  else if c =? ch "n" then Some ([], LKey Knull 1)
  else None.

Definition step_escape (acc : list N) (c : N) : option (list token * lex_state) :=
  if c =? DQUOTE then Some ([], LStr (DQUOTE :: acc))
  else if c =? BACKSLASH then Some ([], LStr (BACKSLASH :: acc))
  else if c =? ch "/" then Some ([], LStr (ch "/" :: acc))
  else if c =? ch "b" then Some ([], LStr (8 :: acc))
  else if c =? ch "f" then Some ([], LStr (12 :: acc))
  else if c =? ch "n" then Some ([], LStr (10 :: acc))
  else if c =? ch "r" then Some ([], LStr (13 :: acc))
  else if c =? ch "t" then Some ([], LStr (9 :: acc))
  else if c =? ch "u" then Some ([], LUni acc 0 0)
  else None.

Definition step (st : lex_state) (c : N) : option (list token * lex_state) :=
  match st with
  | LTop => step_top c
  | LStr acc =>
      if c =? DQUOTE then Some ([TString (rev acc)], LTop)
      else if c =? BACKSLASH then Some ([], LEsc acc)
      else if c <? 32 then None
      else Some ([], LStr (c :: acc))
  | LEsc acc => step_escape acc c
  | LUni acc seen value =>
      match hex_value c with
      | Some d =>
          let value' := 16 * value + d in
          if (seen =? 3)%nat then Some ([], LStr (value' :: acc))
          else Some ([], LUni acc (S seen) value')
      | None => None
      end
  | LNum n acc =>
      match num_step n c with
      | Some n' => Some ([], LNum n' (c :: acc))
      | None =>
          if num_accepting n then
            match step_top c with
            | Some (out, st') => Some (TNumber (rev acc) :: out, st')
            | None => None
            end
          else None
      end
  | LKey k matched =>
      match keyword_text k !! matched with
      | Some expected =>
          if c =? expected then
            if (S matched =? length (keyword_text k))%nat
            then Some ([keyword_token k], LTop)
            else Some ([], LKey k (S matched))
          else None
      | None => None
      end
  end.

(** What the end of the input means in each state. *)
Definition finish (st : lex_state) : option (list token) :=
  match st with
  | LTop => Some []
  | LNum n acc => if num_accepting n then Some [TNumber (rev acc)] else None
  | _ => None
  end.

Fixpoint lex (st : lex_state) (s : list N) : option (list token) :=
  match s with
  | [] => finish st
  | c :: r =>
      match step st c with
      | Some (out, st') => (out ++.) <$> lex st' r
      | None => None
      end
  end.

(** JSON values.  A number is represented by its literal. *)
Inductive JSON : Type :=
  | JNull
  | JBool (b : bool)
  | JNumber (lexeme : list N)
  | JString (s : list N)
  | JArray (l : list JSON)
  | JObject (m : gmap (list N) JSON).

(** An enclosing array or object under construction. *)
Inductive frame : Type :=
  | FArr (elems_rev : list JSON)
  | FObj (m : gmap (list N) JSON) (key : list N).

Inductive parse_state : Type :=
  | PValue (stk : list frame)
  | PArrOpen (stk : list frame)
  | PObjOpen (stk : list frame)
  | PKey (m : gmap (list N) JSON) (stk : list frame)
  | PColon (m : gmap (list N) JSON) (key : list N) (stk : list frame)
  | PAfter (v : JSON) (stk : list frame).

(** A token that starts a value. *)
Definition parse_value_token (t : token) (stk : list frame) : option parse_state :=
  match t with
  | TLBracket => Some (PArrOpen stk)
  | TLBrace => Some (PObjOpen stk)
  | TString s => Some (PAfter (JString s) stk)
  | TNumber l => Some (PAfter (JNumber l) stk)
  | TTrue => Some (PAfter (JBool true) stk)
  | TFalse => Some (PAfter (JBool false) stk)
  | TNull => Some (PAfter JNull stk)
  | _ => None
  end.

(** Property definition keeps the last value of a repeated key. *)
Definition parse_step (st : parse_state) (t : token) : option parse_state :=
  match st with
  | PValue stk => parse_value_token t stk
  | PArrOpen stk =>
      match t with
      | TRBracket => Some (PAfter (JArray []) stk)
      | _ => parse_value_token t (FArr [] :: stk)
      end
  | PObjOpen stk =>
      match t with
      | TRBrace => Some (PAfter (JObject ∅) stk)
      | TString k => Some (PColon ∅ k stk)
      | _ => None
      end
  | PKey m stk =>
      match t with
      | TString k => Some (PColon m k stk)
      | _ => None
      end
  | PColon m k stk =>
      match t with
      | TColon => Some (PValue (FObj m k :: stk))
      | _ => None
      end
  | PAfter v stk =>
      match stk, t with
      | FArr acc :: stk', TComma => Some (PValue (FArr (v :: acc) :: stk'))
      | FArr acc :: stk', TRBracket => Some (PAfter (JArray (rev (v :: acc))) stk')
      | FObj m k :: stk', TComma => Some (PKey (<[k:=v]> m) stk')
      | FObj m k :: stk', TRBrace => Some (PAfter (JObject (<[k:=v]> m)) stk')
      | _, _ => None
      end
  end.

Fixpoint parse_tokens (st : parse_state) (ts : list token) : option JSON :=
  match ts with
  | [] => match st with
          | PAfter v [] => Some v
          | _ => None
          end
  | t :: ts' =>
      match parse_step st t with
      | Some st' => parse_tokens st' ts'
      | None => None
      end
  end.

(** [JSON.parse(text)]; [None] stands for the [SyntaxError] it throws. *)
Definition JSON_parse (text : list N) : option JSON :=
  lex LTop text ≫= parse_tokens (PValue []).

(** ** Completions, errors and the program monad *)

(** Values thrown by the code or by the SDK. *)
Inductive JSError : Type :=
  | Error (message : list N)
  | TypeError
  | Rejection (reason : list N).

Inductive Completion (A : Type) : Type :=
  | Normal (a : A)
  | Throw (e : JSError).
Arguments Normal {A} a.
Arguments Throw {A} e.

(** The settled state of an awaited promise. *)
Inductive Outcome (A : Type) : Type :=
  | Resolved (a : A)
  | Rejected (e : JSError).
Arguments Resolved {A} a.
Arguments Rejected {A} e.

(** *** [@google/genai] request and response shapes *)

Inductive SchemaType : Type := OBJECT | STRING | ARRAY | BOOLEAN | NUMBER.

Inductive Schema : Type :=
  MkSchema (type : SchemaType) (nullable : bool) (description : option (list N))
           (properties : list (list N * Schema)) (required : list (list N))
           (items : option Schema).

Record GenerateContentConfig : Type := {
  systemInstruction : list N;
  responseMimeType : list N;
  responseSchema : Schema;
  temperature : float;
}.

Record GenerateContentParameters : Type := {
  gc_model : list N;
  contents : list N;
  gc_config : GenerateContentConfig;
}.

(** [response.text] is [string | undefined] in the SDK. *)
Record GenerateContentResponse : Type := {
  text : option (list N);
}.

Record GenerateImagesConfig : Type := {
  numberOfImages : nat;
  outputMimeType : list N;
  aspectRatio : list N;
}.

Record GenerateImagesParameters : Type := {
  gi_model : list N;
  prompt : list N;
  gi_config : GenerateImagesConfig;
}.

Record Image : Type := { imageBytes : option (list N) }.
Record GeneratedImage : Type := { image : option Image }.
Record GenerateImagesResponse : Type := {
  generatedImages : option (list GeneratedImage);
}.

(** The client object [new GoogleGenAI({ apiKey })]. *)
Record GoogleGenAI : Type := { apiKey : list N }.

(** *** Asynchronous programs over the two backend calls *)

Inductive Prog (A : Type) : Type :=
  | Ret (a : A)
  | Fail (e : JSError)
  | Call_generateContent (client : GoogleGenAI) (req : GenerateContentParameters)
      (k : Outcome GenerateContentResponse → Prog A)
  | Call_generateImages (client : GoogleGenAI) (req : GenerateImagesParameters)
      (k : Outcome GenerateImagesResponse → Prog A)
  | Console_error (label : list N) (arg : list N) (k : Prog A).
Arguments Ret {A} a.
Arguments Fail {A} e.
Arguments Call_generateContent {A} client req k.
Arguments Call_generateImages {A} client req k.
Arguments Console_error {A} label arg k.

Fixpoint bind {A B : Type} (p : Prog A) (f : A → Prog B) : Prog B :=
  match p with
  | Ret a => f a
  | Fail e => Fail e
  | Call_generateContent c req k => Call_generateContent c req (λ o, bind (k o) f)
  | Call_generateImages c req k => Call_generateImages c req (λ o, bind (k o) f)
  | Console_error l a k => Console_error l a (bind k f)
  end.

Notation "'await!' x := p 'in' q" := (bind p (λ x, q))
  (at level 10, x name, p at level 100, q at level 200, only parsing).

(** [await promise]: a rejection is rethrown at the [await]. *)
Definition settle {A : Type} (o : Outcome A) : Prog A :=
  match o with
  | Resolved a => Ret a
  | Rejected e => Fail e
  end.

Definition await_generateContent (client : GoogleGenAI) (req : GenerateContentParameters)
  : Prog GenerateContentResponse := Call_generateContent client req settle.

Definition await_generateImages (client : GoogleGenAI) (req : GenerateImagesParameters)
  : Prog GenerateImagesResponse := Call_generateImages client req settle.

Definition lift {A : Type} (c : Completion A) : Prog A :=
  match c with
  | Normal a => Ret a
  | Throw e => Fail e
  end.

(** A backend: how each call settles, threading the backend's own state. *)
Record Backend (S : Type) : Type := {
  on_generateContent : S → GenerateContentParameters → Outcome GenerateContentResponse * S;
  on_generateImages : S → GenerateImagesParameters → Outcome GenerateImagesResponse * S;
}.
Arguments on_generateContent {S} _ _ _.
Arguments on_generateImages {S} _ _ _.

Inductive Event : Type :=
  | EvContent (client : GoogleGenAI) (req : GenerateContentParameters)
  | EvImages (client : GoogleGenAI) (req : GenerateImagesParameters)
  | EvConsole (label : list N) (arg : list N).

Record Run (A S : Type) : Type := {
  result : Completion A;
  trace : list Event;
  final : S;
}.
Arguments result {A S} _.
Arguments trace {A S} _.
Arguments final {A S} _.

Definition logged {A S : Type} (ev : Event) (r : Run A S) : Run A S :=
  {| result := result r; trace := ev :: trace r; final := final r |}.

Fixpoint run {A S : Type} (b : Backend S) (p : Prog A) (s : S) : Run A S :=
  match p with
  | Ret a => {| result := Normal a; trace := []; final := s |}
  | Fail e => {| result := Throw e; trace := []; final := s |}
  | Call_generateContent c req k =>
      let '(o, s') := on_generateContent b s req in
      logged (EvContent c req) (run b (k o) s')
  | Call_generateImages c req k =>
      let '(o, s') := on_generateImages b s req in
      logged (EvImages c req) (run b (k o) s')
  | Console_error l a k => logged (EvConsole l a) (run b k s)
  end.

Definition is_network (ev : Event) : bool :=
  match ev with
  | EvContent _ _ | EvImages _ _ => true
  | EvConsole _ _ => false
  end.

Definition network_calls (t : list Event) : list Event := filter is_network t.

(** ** Shared types (the first part of [src/unnamed/part_000]) *)

Inductive GameState : Type := START | LOADING | PLAYING | GAME_OVER | ERROR.

Record Vec3 : Type := { x : float; y : float; z : float }.

(** [partType] is declared as a union of four string literals; at run time
    it is whatever string the backend sent, and [HabitatViewer] has a
    [default] branch for the rest, so it is a string here. *)
Record HabitatPart : Type := {
  id : list N;
  partType : list N;
  position : Vec3;
  rotation : Vec3;
  scale : Vec3;
}.

(** [Omit<HabitatPart, 'id'>] *)
Record HabitatPartDescriptor : Type := {
  d_partType : list N;
  d_position : Vec3;
  d_rotation : Vec3;
  d_scale : Vec3;
}.

(** [Scene extends ScenePayload]: the payload fields and [imageUrl]. *)
Record Scene : Type := {
  story : list N;
  imagePrompt : list N;
  choices : list (list N);
  newItem : option (list N);
  gameOver : bool;
  habitatUpdate : option HabitatPartDescriptor;
  imageUrl : list N;
}.

Record StoryLogEntry : Type := {
  entry_id : nat;
  entry_story : list N;
}.

(** The property names of [ScenePayload]. *)
Inductive payload_field : Type :=
  | f_story | f_imagePrompt | f_choices | f_newItem | f_gameOver | f_habitatUpdate.

Definition field_name (f : payload_field) : list N :=
  match f with
  | f_story => js "story"
  | f_imagePrompt => js "imagePrompt"
  | f_choices => js "choices"
  | f_newItem => js "newItem"
  | f_gameOver => js "gameOver"
  | f_habitatUpdate => js "habitatUpdate"
  end.

(** ** Property access on parsed values

    [v.f] for a payload field name [f].  No built-in prototype defines one
    of these names, so the read is decided by the own properties: [null]
    throws, an object yields its property or [undefined] ([None]), and a
    primitive or an array yields [undefined]. *)
Definition get_field (v : JSON) (f : payload_field) : Completion (option JSON) :=
  match v with
  | JNull => Throw TypeError
  | JObject m => Normal (m !! field_name f)
  | _ => Normal None
  end.

(** The key of array index [i]. *)
Definition index_key (i : nat) : list N :=
  js (NilZero.string_of_uint (Nat.to_uint i)).

(** The own enumerable properties copied by an object spread [{...v}]. *)
Definition own_enumerable (v : JSON) : gmap (list N) JSON :=
  match v with
  | JObject m => m
  | JArray l => list_to_map (imap (λ i e, (index_key i, e)) l)
  | JString s => list_to_map (imap (λ i c, (index_key i, JString [c])) s)
  | _ => ∅
  end.

(** ** The story service (the second part of [src/components/GameUI.tsx]) *)

(** Module evaluation: the credential check, then the client. *)
Record ModuleLoad : Type := {
  completion : Completion GoogleGenAI;
  constructed : list GoogleGenAI;
}.

Definition load_story_service (env : gmap (list N) (list N)) : ModuleLoad :=
  match env !! js "API_KEY" with
  | Some (c :: k) =>
      let ai := {| apiKey := c :: k |} in
      {| completion := Normal ai; constructed := [ai] |}
  | Some [] | None =>
      {| completion := Throw (Error (js "API_KEY environment variable is not set."));
         constructed := [] |}
  end.

Definition leaf (t : SchemaType) (d : option (list N)) : Schema :=
  MkSchema t false d [] [] None.

Definition xyz (d : list N) : Schema :=
  MkSchema OBJECT false (Some d)
    [(js "x", leaf NUMBER None); (js "y", leaf NUMBER None); (js "z", leaf NUMBER None)]
    [js "x"; js "y"; js "z"] None.

Definition responseSchema_ : Schema :=
  MkSchema OBJECT false None
    [(js "story", leaf STRING (Some (js
       "The next part of the story in 1-2 paragraphs. Describe the scene, what is happening, and the results of the player's last action.")));
     (js "imagePrompt", leaf STRING (Some (js
       "A detailed, vivid prompt for an AI image generator to create a cinematic, photorealistic image of the scene. Describe the environment, lighting, and key objects. Style: cinematic, photorealistic, 8k, detailed, atmospheric, Mars setting.")));
     (js "choices", MkSchema ARRAY false (Some (js
       "A list of 2 to 4 distinct and interesting actions the player can take next."))
       [] [] (Some (leaf STRING None)));
     (js "newItem", leaf STRING (Some (js
       "An item the player found or acquired in this scene (e.g., 'Power Cell', 'Medkit'). If no item is found, return an empty string.")));
     (js "gameOver", leaf BOOLEAN (Some (js
       "Set to true ONLY if this is a definitive game over state (e.g., player death or reaching a final conclusion).")));
     (js "habitatUpdate", MkSchema OBJECT true (Some (js
       "An object describing a new part to add to the Martian habitat. If no new part is added, this MUST be null."))
       [(js "partType", leaf STRING (Some (js
          "The type of the part (e.g., 'CYLINDER', 'DOME', 'TUBE', 'AIRLOCK').")));
        (js "position", xyz (js "The 3D position of the new part relative to the habitat's origin."));
        (js "rotation", xyz (js "The 3D rotation of the new part in radians."));
        (js "scale", xyz (js "The 3D scale of the new part."))]
       [] None)]
    [js "story"; js "imagePrompt"; js "choices"; js "newItem"; js "gameOver"; js "habitatUpdate"]
    None.

Definition systemInstruction_ : list N := js
  "You are a master storyteller and game master for a text-based adventure game called 'Settlers of Mars'. The player is one of the first human colonists on Mars. Your goal is to create a compelling, branching narrative focused on survival, exploration, and mystery. The story must be engaging and suspenseful. The choices you provide should be meaningful and have consequences. If the player finds an item, describe how they find it in the story. The player is also building a Martian habitat, starting with their crashed lander (a large cylinder at position 0,0,0). Some choices should allow the player to expand their base with new modules like tubes, domes, and airlocks. When the player adds a part, describe it in the story and provide the 'habitatUpdate' object with its details. Be creative with the placement and orientation of new parts to build an interesting base over time. You must always respond in the provided JSON schema.".

(** The fixed opening scenario. *)
Definition intro_content : list N := js
  "Start the game. The player's colonization shuttle has just crash-landed. They are the sole survivor amidst the wreckage on the red, dusty plains of Mars. The main cylindrical body of the shuttle seems mostly intact and could serve as a starting shelter. What is their first move?".

(** The template literal of the later turns. *)
Definition composed_content (history choice : list N) : list N :=
  js "Here is the story so far:" ++ [LF] ++ history ++ [LF; LF] ++
  js "The player chose to: " ++ [DQUOTE] ++ choice ++ [DQUOTE] ++ js "." ++ [LF; LF] ++
  js "Continue the story. What happens next?".

(** [content] of [generateStory]: [!history] holds of the empty string only. *)
Definition story_content (history choice : list N) : list N :=
  match history with
  | [] => intro_content
  | _ :: _ => composed_content history choice
  end.

Definition story_request (history choice : list N) : GenerateContentParameters :=
  {| gc_model := js "gemini-2.5-flash";
     contents := story_content history choice;
     gc_config := {| systemInstruction := systemInstruction_;
                     responseMimeType := js "application/json";
                     responseSchema := responseSchema_;
                     temperature := 0x1.999999999999ap-1%float |} |}.

Definition invalid_story_format : JSError :=
  Error (js "Received an invalid story format from the AI.").

(** The [try] block of [generateStory] on the trimmed text: strip the
    fences, parse; the [catch] logs and throws the module's own error. *)
Definition parse_story_text (trimmed : list N) : Prog JSON :=
  let cleanText := replace_fence_close (replace_fence_open trimmed) in
  match JSON_parse cleanText with
  | Some payload => Ret payload
  | None =>
      Console_error (js "Failed to parse JSON response:") trimmed
        (Fail invalid_story_format)
  end.

(** Lines 232 to 240: from the response to the payload. *)
Definition story_of_response (response : GenerateContentResponse) : Prog JSON :=
  match text response with
  | Some t => parse_story_text (trim t)
  | None => Fail TypeError
  end.

Definition image_config : GenerateImagesConfig :=
  {| numberOfImages := 1;
     outputMimeType := js "image/jpeg";
     aspectRatio := js "16:9" |}.

Definition image_request (prompt_text : list N) : GenerateImagesParameters :=
  {| gi_model := js "imagen-4.0-generate-001";
     prompt := prompt_text ++ js ", on the planet Mars, sci-fi, realistic";
     gi_config := image_config |}.

Definition no_image : JSError := Error (js "Failed to generate an image.").

(** Lines 254 to 258: from the image response to the data URI. *)
Definition image_of_response (response : GenerateImagesResponse) : Prog (list N) :=
  match generatedImages response with
  | Some (first :: _) =>
      match image first with
      | Some img =>
          let base64ImageBytes := default (js "undefined") (imageBytes img) in
          Ret (js "data:image/jpeg;base64," ++ base64ImageBytes)
      | None => Fail TypeError
      end
  | Some [] | None => Fail no_image
  end.

Section Service.

(** String conversion of a number, an array or an object inside a
    template literal (number formatting and [ToPrimitive]); it is not
    fixed here, and may throw. *)
Variable ToString_other : JSON → Completion (list N).

(** The client the module holds. *)
Variable ai : GoogleGenAI.

(** [`${value}`] *)
Definition ToString (value : option JSON) : Completion (list N) :=
  match value with
  | None => Normal (js "undefined")
  | Some (JString s) => Normal s
  | Some JNull => Normal (js "null")
  | Some (JBool true) => Normal (js "true")
  | Some (JBool false) => Normal (js "false")
  | Some v => ToString_other v
  end.

Definition generateStory (history choice : list N) : Prog JSON :=
  await! response := await_generateContent ai (story_request history choice) in
  story_of_response response.

Definition generateImage (prompt_value : option JSON) : Prog (list N) :=
  await! prompt_text := lift (ToString prompt_value) in
  await! response := await_generateImages ai (image_request prompt_text) in
  image_of_response response.

Definition fetchNextScene (history choice : list N) : Prog (gmap (list N) JSON) :=
  await! scenePayload := generateStory history choice in
  await! imagePrompt_value := lift (get_field scenePayload f_imagePrompt) in
  await! imageUrl_value := generateImage imagePrompt_value in
  Ret (<[js "imageUrl" := JString imageUrl_value]> (own_enumerable scenePayload)).

(** [fetchNextScene] from its second line on, for a given payload. *)
Definition after_story (scenePayload : JSON) : Prog (gmap (list N) JSON) :=
  await! imagePrompt_value := lift (get_field scenePayload f_imagePrompt) in
  await! imageUrl_value := generateImage imagePrompt_value in
  Ret (<[js "imageUrl" := JString imageUrl_value]> (own_enumerable scenePayload)).

End Service.

(** What the service module exports.  The client [ai] is a constant of the
    module and is not exported: importers reach the backend through
    [fetchNextScene] only. *)
Record Exports : Type := {
  exported_fetchNextScene : list N → list N → Prog (gmap (list N) JSON);
}.

(** The module as its importers get it: its evaluation threw, or its export
    is closed over the client that the evaluation constructed. *)
Definition story_service_module (ToString_other : JSON → Completion (list N))
    (env : gmap (list N) (list N)) : Completion Exports :=
  match completion (load_story_service env) with
  | Normal ai =>
      Normal {| exported_fetchNextScene := fetchNextScene ToString_other ai |}
  | Throw e => Throw e
  end.

(** A module that imports the service.  Its body runs with the exports;
    when the evaluation of the service throws, the importer is not
    evaluated and fails with that error. *)
Definition importing {A : Type} (ToString_other : JSON → Completion (list N))
    (env : gmap (list N) (list N)) (body : Exports → Prog A) : Prog A :=
  match story_service_module ToString_other env with
  | Normal exports => body exports
  | Throw e => Fail e
  end.

(** ** The scene graph of three.js, as far as [HabitatViewer] uses it *)

Definition Math_PI : float := 0x1.921fb54442d18p+1%float.

Inductive Geometry : Type :=
  | CylinderGeometry (radiusTop radiusBottom height : float) (radialSegments : nat)
  | SphereGeometry (radius : float) (widthSegments heightSegments : nat)
      (phiStart phiLength thetaStart thetaLength : float)
  | BoxGeometry (width height depth : float).

Record MeshStandardMaterial : Type := {
  color : N;
  metalness : float;
  roughness : float;
}.

Inductive Object3DKind : Type :=
  | AmbientLight (light_color : N) (intensity : float)
  | DirectionalLight (light_color : N) (intensity : float)
  | Mesh (geometry : Geometry) (material : MeshStandardMaterial).

(** An object of the graph.  [object_id] stands for the identity of the
    JavaScript object ([Object3D] numbers its instances); [indexOf]
    compares identities. *)
Record Object3D : Type := {
  object_id : nat;
  kind : Object3DKind;
  obj_position : Vec3;
  obj_rotation : Vec3;
  obj_scale : Vec3;
}.

Definition vec3 (a b c : float) : Vec3 := {| x := a; y := b; z := c |}.

(** A newly constructed [Object3D]: at the origin, unrotated, scale one. *)
Definition new_Object3D (i : nat) (k : Object3DKind) : Object3D :=
  {| object_id := i; kind := k;
     obj_position := vec3 0 0 0; obj_rotation := vec3 0 0 0; obj_scale := vec3 1 1 1 |}.

Definition position_set (o : Object3D) (a b c : float) : Object3D :=
  {| object_id := object_id o; kind := kind o;
     obj_position := vec3 a b c; obj_rotation := obj_rotation o; obj_scale := obj_scale o |}.

Definition rotation_set (o : Object3D) (a b c : float) : Object3D :=
  {| object_id := object_id o; kind := kind o;
     obj_position := obj_position o; obj_rotation := vec3 a b c; obj_scale := obj_scale o |}.

Definition scale_set (o : Object3D) (a b c : float) : Object3D :=
  {| object_id := object_id o; kind := kind o;
     obj_position := obj_position o; obj_rotation := obj_rotation o; obj_scale := vec3 a b c |}.

(** [children.indexOf(o)] followed by [children.splice(index, 1)]: the
    first child that is the object [o] is taken out. *)
Fixpoint scene_remove (children : list Object3D) (o : Object3D) : list Object3D :=
  match children with
  | [] => []
  | c :: r =>
      if (object_id c =? object_id o)%nat then r else c :: scene_remove r o
  end.

(** [scene.add(o)]: the object leaves its parent, if it has one, and is
    pushed at the end. *)
Definition scene_add (children : list Object3D) (o : Object3D) : list Object3D :=
  scene_remove children o ++ [o].

(** ** [HabitatViewer] (the second part of [src/unnamed/part_000]) *)

(** What the component holds between renders: the identities handed out so
    far and [sceneRef.current], the children of the scene. *)
Record Viewer : Type := {
  next_object_id : nat;
  sceneRef : option (list Object3D);
}.

Definition ambientLight (i : nat) : Object3D :=
  new_Object3D i (AmbientLight 0xffffff 0.5).

Definition directionalLight (i : nat) : Object3D :=
  position_set (new_Object3D i (DirectionalLight 0xffffff 1)) 5 10 7.5.

(** The mount effect (dependency list [[]]).  [mounted] tells whether
    [mountRef.current] is set.  The scene and the camera are objects too and
    take an identity each; the camera, the renderer, the controls and the
    resize listener are not part of the scene graph. *)
Definition mount_effect (mounted : bool) (v : Viewer) : Viewer :=
  if mounted then
    let scene_id := next_object_id v in
    let camera_id := S scene_id in
    let ambient := ambientLight (S camera_id) in
    let directional := directionalLight (S (S camera_id)) in
    {| next_object_id := S (S (S camera_id));
       sceneRef := Some (scene_add (scene_add [] ambient) directional) |}
  else v.

(** [while (scene.children.length > 2) scene.remove(scene.children[2])],
    with a bound on the number of iterations. *)
Fixpoint clear_parts (fuel : nat) (children : list Object3D) : list Object3D :=
  match fuel with
  | O => children
  | S fuel' =>
      match children !! 2%nat with
      | Some o => clear_parts fuel' (scene_remove children o)
      | None => children
      end
  end.

Definition habitat_material : MeshStandardMaterial :=
  {| color := 0xc0c0c0; metalness := 0.8; roughness := 0.3 |}.

(** The [switch] on [part.partType]; [None] is the [default: return]. *)
Definition part_geometry (partType_ : list N) : option Geometry :=
  if decide (partType_ = js "CYLINDER") then
    Some (CylinderGeometry 0.5 0.5 1 32)
  else if decide (partType_ = js "DOME") then
    Some (SphereGeometry 0.5 32 16 0 (Math_PI * 2) 0 (Math_PI / 2))
  else if decide (partType_ = js "TUBE") then
    Some (CylinderGeometry 0.2 0.2 1 24)
  else if decide (partType_ = js "AIRLOCK") then
    Some (BoxGeometry 0.4 0.6 0.4)
  else None.

Definition part_mesh (i : nat) (material : MeshStandardMaterial)
    (geometry : Geometry) (part : HabitatPart) : Object3D :=
  let mesh := new_Object3D i (Mesh geometry material) in
  let mesh := position_set mesh (x (position part)) (y (position part)) (z (position part)) in
  let mesh := rotation_set mesh (x (rotation part)) (y (rotation part)) (z (rotation part)) in
  scale_set mesh (x (scale part)) (y (scale part)) (z (scale part)).

(** The callback of [parts.forEach], on the identity counter and the
    children of the scene. *)
Definition add_part (material : MeshStandardMaterial)
    (st : nat * list Object3D) (part : HabitatPart) : nat * list Object3D :=
  match part_geometry (partType part) with
  | Some geometry =>
      (S st.1, scene_add st.2 (part_mesh st.1 material geometry part))
  | None => st
  end.

(** The effect that depends on [[parts]]. *)
Definition parts_effect (parts : list HabitatPart) (v : Viewer) : Viewer :=
  match sceneRef v with
  | None => v
  | Some children =>
      let cleared := clear_parts (length children) children in
      let st := foldl (add_part habitat_material) (next_object_id v, cleared) parts in
      {| next_object_id := st.1; sceneRef := Some st.2 |}
  end.

(** The component over its life: mounted with the first part list, then
    one run of the second effect per later part list. *)
Definition HabitatViewer_effects (first : list HabitatPart)
    (updates : list (list HabitatPart)) : Viewer :=
  foldl (λ v parts, parts_effect parts v)
        (parts_effect first (mount_effect true {| next_object_id := 0; sceneRef := None |}))
        updates.

(** The two lights of a viewer mounted in a fresh component. *)
Definition lights : list Object3D := [ambientLight 2; directionalLight 3].

(** The meshes of a part list, identities counted from [i]: one for each
    part that has a geometry, in the order of the list. *)
Fixpoint meshes_from (i : nat) (parts : list HabitatPart) : list Object3D :=
  match parts with
  | [] => []
  | part :: rest =>
      match part_geometry (partType part) with
      | Some geometry =>
          part_mesh i habitat_material geometry part :: meshes_from (S i) rest
      | None => meshes_from i rest
      end
  end.

(** What holds of a mounted viewer between two runs of the effect: the
    two lights come first, and every other child was numbered after them. *)
Definition mounted_viewer (v : Viewer) : Prop :=
  ∃ old, sceneRef v = Some (lights ++ old)
         ∧ Forall (λ o, 4 ≤ object_id o < next_object_id v)%nat old
         ∧ (4 ≤ next_object_id v)%nat.

(** The part types of the enumeration. *)
Definition part_types : list (list N) :=
  [js "CYLINDER"; js "DOME"; js "TUBE"; js "AIRLOCK"].

(** The crashed lander. *)
Definition lander (id_ : list N) : HabitatPart :=
  {| id := id_; partType := js "CYLINDER";
     position := vec3 0 0 0; rotation := vec3 0 0 0; scale := vec3 1 1 1 |}.

(** ** Rendered output: a tree of elements *)

Inductive Handler : Type :=
  | OnChoice (choice : list N)
  | DownloadStl.

(** An element with its key, its string attributes, its click handler and
    its [disabled] flag; [VOpaque] is a component of another file
    ([ItemIcon], [LoadingSpinner], [DownloadIcon]).  Class names and the
    style sheet are left out. *)
Inductive VNode : Type :=
  | VText (s : list N)
  | VElem (tag : string) (key : option nat) (attrs : list (string * list N))
      (onClick : option Handler) (disabled : bool) (children : list VNode)
  | VOpaque (name : string).

Definition el (tag : string) (children : list VNode) : VNode :=
  VElem tag None [] None false children.

Definition keyed (tag : string) (k : nat) (children : list VNode) : VNode :=
  VElem tag (Some k) [] None false children.

(** The JSX that [HabitatViewer] returns. *)
Definition HabitatViewer_render : VNode :=
  el "div"
    [el "div" [];
     VElem "button" None
       [("title", js "Download .STL file");
        ("aria-label", js "Download habitat as STL file")]
       (Some DownloadStl) false
       [VOpaque "DownloadIcon"]].

(** ** [GameUI] (the first part of [src/components/GameUI.tsx]) *)

Record GameUIProps : Type := {
  scene : option Scene;
  storyLog : list StoryLogEntry;
  inventory : list (list N);
  habitatParts : list HabitatPart;
  isLoading : bool;
}.

Definition inventory_panel (items : list (list N)) : VNode :=
  match items with
  | _ :: _ =>
      el "ul" (imap (λ index item,
                  keyed "li" index [VOpaque "ItemIcon"; el "span" [VText item]])
                items)
  | [] => el "p" [VText (js "No items collected.")]
  end.

Definition log_panel (log : list StoryLogEntry) : VNode :=
  match log with
  | _ :: _ =>
      el "ul" (map (λ entry,
                  keyed "li" (entry_id entry)
                    [VText (take 100 (entry_story entry)); VText (js "...")])
                (reverse log))
  | [] => el "p" [VText (js "Log is empty. The mission has just begun.")]
  end.

Definition choice_button (loading : bool) (index : nat) (choice : list N) : VNode :=
  VElem "button" (Some index) [] (Some (OnChoice choice)) loading
    [VText (js "> " ++ choice)].

(** [scene.choices.length > 0 && !scene.gameOver && (...)] *)
Definition choices_panel (loading : bool) (s : Scene) : list VNode :=
  if bool_decide (0 < length (choices s))%nat && negb (gameOver s) then
    [el "div"
       [el "h3" [VText (js "WHAT DO YOU DO?")];
        el "div" (imap (choice_button loading) (choices s))]]
  else [].

Definition image_panel (p : GameUIProps) : list VNode :=
  if isLoading p then [VOpaque "LoadingSpinner"]
  else match scene p with
       | Some s =>
           [VElem "img" None [("src", imageUrl s); ("alt", imagePrompt s)]
              None false []]
       | None => []
       end.

Definition story_panel (p : GameUIProps) : list VNode :=
  if isLoading p then
    [el "p" [VText (js "Awaiting transmission from Mars...")]]
  else match scene p with
       | Some s =>
           el "div" [el "p" [VText (story s)]] :: choices_panel (isLoading p) s
       | None => []
       end.

Definition GameUI (p : GameUIProps) : VNode :=
  el "div"
    [el "aside"
       [el "div" [el "h2" [VText (js "HABITAT STATUS")]; HabitatViewer_render];
        el "div" [el "h2" [VText (js "INVENTORY")]; inventory_panel (inventory p)];
        el "div" [el "h2" [VText (js "MISSION LOG")];
                  el "div" [log_panel (storyLog p)]]];
     el "main"
       [el "div" (image_panel p);
        el "div" (story_panel p)];
     VOpaque "style"].

(** The choices offered to the player: the [onChoice] handlers of the
    elements of a tree, in document order. *)
Fixpoint offered_choices (n : VNode) : list (list N) :=
  match n with
  | VElem _ _ _ h _ children =>
      match h with
      | Some (OnChoice c) => [c]
      | _ => []
      end ++ flat_map offered_choices children
  | _ => []
  end.

(** The buttons of a tree, with their handlers. *)
Fixpoint buttons (n : VNode) : list (option Handler) :=
  match n with
  | VElem tag _ _ h _ children =>
      (if String.eqb tag "button" then [h] else []) ++ flat_map buttons children
  | _ => []
  end.

(** ** The valid ScenePayload of the design document

    Written from the document, not from the code: every required field
    present with its type, [choices] empty only when [gameOver] holds, and a
    [habitatUpdate] that is [null] or has a recognized [partType] and three
    numeric vectors. *)

Definition is_string (v : option JSON) : bool :=
  match v with Some (JString _) => true | _ => false end.

Definition is_number (v : option JSON) : bool :=
  match v with Some (JNumber _) => true | _ => false end.

Definition is_xyz (v : option JSON) : bool :=
  match v with
  | Some (JObject m) =>
      is_number (m !! js "x") && is_number (m !! js "y") && is_number (m !! js "z")
  | _ => false
  end.

Definition recognized_partType (t : list N) : bool :=
  bool_decide (t ∈ part_types).

Definition spec_valid_habitatUpdate (v : option JSON) : bool :=
  match v with
  | Some JNull => true
  | Some (JObject m) =>
      match m !! js "partType" with
      | Some (JString t) => recognized_partType t
      | _ => false
      end
      && is_xyz (m !! js "position") && is_xyz (m !! js "rotation")
      && is_xyz (m !! js "scale")
  | _ => false
  end.

Definition spec_valid_ScenePayload (v : JSON) : bool :=
  match v with
  | JObject m =>
      is_string (m !! js "story")
      && is_string (m !! js "imagePrompt")
      && match m !! js "newItem" with
         | Some (JString _) | Some JNull => true
         | _ => false
         end
      && spec_valid_habitatUpdate (m !! js "habitatUpdate")
      && match m !! js "choices", m !! js "gameOver" with
         | Some (JArray l), Some (JBool over) =>
             forallb (λ c, is_string (Some c)) l
             && (bool_decide (0 < length l)%nat || over)
         | _, _ => false
         end
  | _ => false
  end.

(** The response text with the markdown fence around it; the line feeds
    after the opening marker and before the closing one are optional. *)
Definition fenced (lf_open lf_close : bool) (t : list N) : list N :=
  js "```json" ++ (if lf_open then [LF] else []) ++ t
  ++ (if lf_close then [LF] else []) ++ js "```".

(** ** A scripted backend and sample response texts, for the examples *)

Definition sample_image : GenerateImagesResponse :=
  {| generatedImages := Some [{| image := Some {| imageBytes := Some (js "AAAA") |} |}] |}.

(** Answers every narrative request with the text [t], every image request
    with the response [img]. *)
Definition scripted (t : list N) (img : Outcome GenerateImagesResponse) : Backend unit :=
  {| on_generateContent := λ s _, (Resolved {| text := Some t |}, s);
     on_generateImages := λ s _, (img, s) |}.

(** Every narrative request is rejected with [e]. *)
Definition unreachable (e : JSError) : Backend unit :=
  {| on_generateContent := λ s _, (Rejected e, s);
     on_generateImages := λ s _, (Rejected e, s) |}.

(** Every narrative request resolves with a response that has no text. *)
Definition textless : Backend unit :=
  {| on_generateContent := λ s _, (Resolved {| text := None |}, s);
     on_generateImages := λ s _, (Resolved sample_image, s) |}.

Definition sample_ai : GoogleGenAI := {| apiKey := js "key" |}.

Definition no_coercion (v : JSON) : Completion (list N) := Throw TypeError.

(** A string literal of JSON text. *)
Definition quoted (s : string) : list N := [DQUOTE] ++ js s ++ [DQUOTE].

Definition member (k : string) (v : list N) : list N := quoted k ++ js ":" ++ v.

Definition object_text (members : list (list N)) : list N :=
  js "{" ++ mjoin (imap (λ i m, if i is O then m else js "," ++ m) members) ++ js "}".

Definition xyz_text : list N := js "{" ++ member "x" (js "0") ++ js ","
  ++ member "y" (js "0") ++ js "," ++ member "z" (js "1.5") ++ js "}".

Definition habitat_text (partType_ : string) : list N :=
  object_text [member "partType" (quoted partType_); member "position" xyz_text;
               member "rotation" xyz_text; member "scale" xyz_text].

Definition payload_text (story_ choices_ gameOver_ habitat_ : list N) : list N :=
  object_text [member "story" story_; member "imagePrompt" (quoted "a red plain");
               member "choices" choices_; member "newItem" (quoted "Medkit");
               member "gameOver" gameOver_; member "habitatUpdate" habitat_].

Definition two_choices : list N := js "[" ++ quoted "Dig in" ++ js "," ++ quoted "Walk on" ++ js "]".

(** A payload the design document accepts. *)
Definition good_text : list N :=
  payload_text (quoted "Dust settles.") two_choices (js "false") (habitat_text "DOME").

(** [story] is a number. *)
Definition mistyped_text : list N :=
  payload_text (js "7") two_choices (js "false") (js "null").

(** No choice although the game goes on. *)
Definition choiceless_text : list N :=
  payload_text (quoted "Dust settles.") (js "[]") (js "false") (js "null").

(** A part type outside the enumeration. *)
Definition pyramid_text : list N :=
  payload_text (quoted "Dust settles.") two_choices (js "false") (habitat_text "PYRAMID").

(** ** Observations on rendered trees and scene graphs *)

(** The texts of a tree, in document order. *)
Fixpoint texts (n : VNode) : list (list N) :=
  match n with
  | VText s => [s]
  | VElem _ _ _ _ _ children => flat_map texts children
  | VOpaque _ => []
  end.

(** The choice buttons of a tree: key, label and [disabled] flag of every
    element with a choice handler. *)
Fixpoint choice_buttons (n : VNode) : list (option nat * list (list N) * bool) :=
  match n with
  | VElem _ k _ h d children =>
      match h with
      | Some (OnChoice _) => [(k, flat_map texts children, d)]
      | _ => []
      end ++ flat_map choice_buttons children
  | _ => []
  end.

(** What an object of the scene graph looks like: all but its identity. *)
Definition appearance (o : Object3D) : Object3DKind * Vec3 * Vec3 * Vec3 :=
  (kind o, obj_position o, obj_rotation o, obj_scale o).

(** The mesh a part is drawn as, if any, up to identity. *)
Definition part_appearance (part : HabitatPart)
  : option (Object3DKind * Vec3 * Vec3 * Vec3) :=
  match part_geometry (partType part) with
  | Some g => Some (Mesh g habitat_material, position part, rotation part, scale part)
  | None => None
  end.

(** ** [downloadStl] and the page around it *)

Record Blob : Type := {
  blob_bytes : list N;
  blob_type : list N;
}.

(** The page as far as [downloadStl] touches it: the identities of the
    children of [document.body], the blobs that have an object URL, and
    the files handed to the user. *)
Record Page : Type := {
  next_node_id : nat;
  body_children : list nat;
  object_urls : list Blob;
  downloads : list (list N * Blob);
}.

(** [body.removeChild(node)]: the child with that identity is taken out. *)
Fixpoint removeChild (children : list nat) (node : nat) : list nat :=
  match children with
  | [] => []
  | c :: r => if (c =? node)%nat then r else c :: removeChild r node
  end.

Section Download.

(** [new STLExporter().parse(scene, { binary: true })], not fixed here. *)
Variable STL_binary : list Object3D → list N.

Definition downloadStl (v : Viewer) (page : Page) : Page :=
  match sceneRef v with
  | Some scene_children =>
      let blob := {| blob_bytes := STL_binary scene_children;
                     blob_type := js "application/octet-stream" |} in
      let link := next_node_id page in
      let appended := body_children page ++ [link] in
      let filename := js "mars-habitat.stl" in
      {| next_node_id := S link;
         body_children := removeChild appended link;
         object_urls := object_urls page ++ [blob];
         downloads := downloads page ++ [(filename, blob)] |}
  | None => page
  end.

End Download.

(** The viewer over its life when [mountRef.current] may be unset. *)
Definition HabitatViewer_life (mounted : bool) (first : list HabitatPart)
    (updates : list (list HabitatPart)) : Viewer :=
  foldl (λ v parts, parts_effect parts v)
        (parts_effect first
           (mount_effect mounted {| next_object_id := 0; sceneRef := None |}))
        updates.

(** * Properties *)

(** ** The lexer and whitespace *)

Lemma fmap_nil_app (o : option (list token)) : ([] ++.) <$> o = o.
Proof. by destruct o. Qed.

Lemma lex_cons st c r :
  lex st (c :: r) =
  match step st c with Some (out, st') => (out ++.) <$> lex st' r | None => None end.
Proof. done. Qed.

Lemma keyword_char k m c : keyword_text k !! m = Some c → is_js_ws c = false ∧ c ≠ 96.
Proof.
  destruct k; do 6 (try destruct m as [|m]); simpl; try done; intros [= <-]; by vm_compute.
Qed.

Lemma js_ws_cases c : is_js_ws c = true → c ∈ js_whitespace.
Proof. unfold is_js_ws. by intros ?%bool_decide_eq_true. Qed.

Ltac each_ws H :=
  unfold js_whitespace in H;
  repeat (apply elem_of_cons in H as [->|H]); [..|by apply elem_of_nil in H].

Lemma step_js_ws_finish st c out st' toks :
  is_js_ws c = true → step st c = Some (out, st') → finish st' = Some toks →
  finish st = Some (out ++ toks).
Proof.
  intros Hc%js_ws_cases Hs Hf.
  destruct st as [|acc|acc|acc seen value|n acc|k m].
  - each_ws Hc; vm_compute in Hs; try done; injection Hs as <- <-; by rewrite Hf.
  - each_ws Hc; vm_compute in Hs; try done; injection Hs as <- <-; done.
  - each_ws Hc; vm_compute in Hs; done.
  - each_ws Hc; simpl in Hs; done.
  - destruct n; each_ws Hc; simpl in Hs; try done; injection Hs as <- <-; simpl in *; by injection Hf as <-.
  - simpl in Hs. destruct (keyword_text k !! m) as [e|] eqn:He; [|done].
    apply keyword_char in He as [He _].
    destruct (N.eqb_spec c e) as [->|]; [|done].
    each_ws Hc; by vm_compute in He.
Qed.

Lemma json_ws_cases c : is_json_ws c = true → c = 9 ∨ c = 10 ∨ c = 13 ∨ c = 32.
Proof.
  unfold is_json_ws. rewrite !orb_true_iff, !N.eqb_eq. tauto.
Qed.

Lemma step_json_ws st c :
  is_json_ws c = true →
  match step st c with
  | Some (out, st') => (out ++.) <$> finish st'
  | None => None
  end = finish st.
Proof.
  intros Hc%json_ws_cases.
  destruct st as [|acc|acc|acc seen value|n acc|k m].
  - by destruct Hc as [->|[->|[->| ->]]].
  - by destruct Hc as [->|[->|[->| ->]]].
  - by destruct Hc as [->|[->|[->| ->]]].
  - by destruct Hc as [->|[->|[->| ->]]].
  - by destruct n; destruct Hc as [->|[->|[->| ->]]].
  - simpl. destruct (keyword_text k !! m) as [e|] eqn:He; [|done].
    apply keyword_char in He as [He _].
    destruct (N.eqb_spec c e) as [->|]; [|done].
    by destruct Hc as [->|[->|[->| ->]]]; vm_compute in He.
Qed.

Lemma lex_json_ws st w :
  Forall (λ c, is_json_ws c = true) w → lex st w = finish st.
Proof.
  intros Hw. revert st. induction Hw as [|c w Hc _ IH]; intros st; [done|].
  rewrite lex_cons, <- (step_json_ws st c Hc).
  destruct (step st c) as [[out st']|]; [|done]. by rewrite IH.
Qed.

Lemma lex_app_json_ws st s w :
  Forall (λ c, is_json_ws c = true) w → lex st (s ++ w) = lex st s.
Proof.
  intros Hw. revert st. induction s as [|c s IH]; intros st; simpl.
  - by apply lex_json_ws.
  - destruct (step st c) as [[out st']|]; [|done]. by rewrite IH.
Qed.

Lemma lex_json_ws_cons c s :
  is_json_ws c = true → lex LTop (c :: s) = lex LTop s.
Proof.
  intros Hc. rewrite lex_cons. simpl. unfold step_top. rewrite Hc.
  apply fmap_nil_app.
Qed.

Lemma lex_cons_Some st c r toks :
  lex st (c :: r) = Some toks →
  ∃ out st' toks', step st c = Some (out, st') ∧ lex st' r = Some toks'
                   ∧ toks = out ++ toks'.
Proof.
  rewrite lex_cons. destruct (step st c) as [[out st']|]; [|done].
  destruct (lex st' r) as [toks'|] eqn:Hr; [|done]. intros [= <-].
  exists out, st', toks'. auto.
Qed.

Lemma lex_trimEnd st s toks :
  lex st s = Some toks → lex st (trimEnd s) = Some toks.
Proof.
  revert st toks. induction s as [|c r IH]; intros st toks H; [done|].
  apply lex_cons_Some in H as (out & st' & toks' & Hs & Hr & ->).
  apply IH in Hr. simpl.
  destruct (trimEnd r) as [|c' r'] eqn:Hr'.
  - simpl in Hr. destruct (is_js_ws c) eqn:Hc.
    + simpl. eauto using step_js_ws_finish.
    + simpl. by rewrite Hs, Hr.
  - rewrite lex_cons, Hs, Hr. done.
Qed.

Lemma step_top_js_ws c :
  is_js_ws c = true → is_json_ws c = true ∨ step_top c = None.
Proof.
  intros Hc%js_ws_cases. each_ws Hc; vm_compute; auto.
Qed.

Lemma lex_trimStart s toks :
  lex LTop s = Some toks → lex LTop (trimStart s) = Some toks.
Proof.
  induction s as [|c r IH]; [done|]. intros H. simpl.
  destruct (is_js_ws c) eqn:Hc; [|done].
  destruct (step_top_js_ws c Hc) as [Hj|Hn].
  - rewrite lex_json_ws_cons in H by done. auto.
  - rewrite lex_cons in H. simpl in H. by rewrite Hn in H.
Qed.

Lemma lex_trim s toks : lex LTop s = Some toks → lex LTop (trim s) = Some toks.
Proof. intros H. by apply lex_trimEnd, lex_trimStart. Qed.

Lemma JSON_parse_trim s v : JSON_parse s = Some v → JSON_parse (trim s) = Some v.
Proof.
  unfold JSON_parse. destruct (lex LTop s) as [toks|] eqn:H; [|done].
  by rewrite (lex_trim _ _ H).
Qed.

(** ** The markdown fence *)

Lemma fence_close_here_cases s :
  fence_close_here s = true → s = LF :: js "```" ∨ s = js "```".
Proof.
  unfold fence_close_here. rewrite orb_true_iff, !bool_decide_eq_true. tauto.
Qed.

Lemma replace_fence_close_cons c r :
  replace_fence_close (c :: r) =
  if fence_close_here (c :: r) then [] else c :: replace_fence_close r.
Proof. done. Qed.

Lemma lex_LKey_None k m c r :
  is_js_ws c = true ∨ c = 96 → lex (LKey k m) (c :: r) = None.
Proof.
  intros Hc. rewrite lex_cons. unfold step.
  destruct (keyword_text k !! m) as [e|] eqn:He; [|done].
  apply keyword_char in He as [He1 He2].
  destruct (N.eqb_spec c e) as [->|]; [|done].
  destruct Hc; congruence.
Qed.

Lemma lex_fence_None st s : fence_close_here s = true → lex st s = None.
Proof.
  intros [-> | ->]%fence_close_here_cases;
    destruct st as [|acc|acc|acc seen value|n acc|k m]; try done;
    try (by destruct n); apply lex_LKey_None; auto.
Qed.

Lemma lex_replace_fence_close st s toks :
  lex st s = Some toks → replace_fence_close s = s.
Proof.
  revert st toks. induction s as [|c r IH]; intros st toks H; [done|].
  rewrite replace_fence_close_cons.
  destruct (fence_close_here (c :: r)) eqn:Hf.
  - by rewrite (lex_fence_None st _ Hf) in H.
  - apply lex_cons_Some in H as (out & st' & toks' & _ & Hr & _).
    by rewrite (IH _ _ Hr).
Qed.

Lemma lex_replace_fence_open s toks :
  lex LTop s = Some toks → replace_fence_open s = s.
Proof.
  destruct s as [|c r]; [done|]. intros H.
  unfold replace_fence_open.
  change (drop_prefix (js "```json") (c :: r))
    with (if 96 =? c then drop_prefix (js "``json") r else None).
  destruct (N.eqb_spec 96 c) as [<-|]; [|done].
  by rewrite lex_cons in H.
Qed.

Lemma trimEnd_snoc a c : is_js_ws c = false → trimEnd (a ++ [c]) = a ++ [c].
Proof.
  intros Hc. induction a as [|b a IH]; simpl.
  - by rewrite Hc.
  - rewrite IH. by destruct a.
Qed.

Lemma fence_close_here_length s : fence_close_here s = true → (length s ≤ 4)%nat.
Proof. intros [-> | ->]%fence_close_here_cases; simpl; lia. Qed.

Lemma replace_fence_close_lf a : replace_fence_close (a ++ LF :: js "```") = a.
Proof.
  induction a as [|c a IH]; [done|].
  change ((c :: a) ++ LF :: js "```") with (c :: (a ++ LF :: js "```")).
  rewrite replace_fence_close_cons, IH.
  destruct (fence_close_here _) eqn:Hf; [|done].
  apply fence_close_here_length in Hf. simpl in Hf. rewrite length_app in Hf.
  simpl in Hf. lia.
Qed.

Lemma replace_fence_close_bare a :
  (∀ a0, a ≠ a0 ++ [LF]) → replace_fence_close (a ++ js "```") = a.
Proof.
  induction a as [|c a IH]; intros Ha; [done|].
  change ((c :: a) ++ js "```") with (c :: (a ++ js "```")).
  rewrite replace_fence_close_cons.
  destruct (fence_close_here _) eqn:Hf.
  - apply fence_close_here_cases in Hf as [Hf|Hf].
    + injection Hf as -> Hf. destruct a as [|? a]; [by destruct (Ha [])|].
      apply (f_equal length) in Hf. simpl in Hf. rewrite length_app in Hf.
      simpl in Hf. lia.
    + apply (f_equal length) in Hf. simpl in Hf. rewrite length_app in Hf.
      simpl in Hf. lia.
  - rewrite IH; [done|]. intros a0 ->. by apply (Ha (c :: a0)).
Qed.

(** After the fence is stripped from a fenced text, what is left lexes as
    the text does. *)
Lemma lex_strip_fenced lf_open lf_close t toks :
  lex LTop t = Some toks →
  lex LTop (replace_fence_close (replace_fence_open (fenced lf_open lf_close t)))
  = Some toks.
Proof.
  intros Ht.
  destruct (decide (t = [])) as [->|Hne].
  { by destruct lf_open, lf_close. }
  assert (∃ t1, replace_fence_open (fenced lf_open lf_close t)
                = t1 ++ (if lf_close then [LF] else []) ++ js "```"
                ∧ lex LTop t1 = Some toks) as (t1 & -> & H1).
  { unfold fenced. destruct lf_open.
    - exists t. split; [|done]. unfold replace_fence_open. simpl. done.
    - unfold replace_fence_open. simpl.
      destruct t as [|c t']; [done|]. simpl.
      destruct (N.eqb_spec c LF) as [->|]; [|by exists (c :: t')].
      exists t'. split; [done|]. by rewrite lex_json_ws_cons in Ht. }
  destruct lf_close; simpl.
  - by rewrite replace_fence_close_lf.
  - destruct t1 as [|c t1 _] using rev_ind; [done|].
    destruct (decide (c = LF)) as [->|Hc].
    + rewrite <- (assoc_L (++)). simpl. rewrite replace_fence_close_lf.
      by rewrite lex_app_json_ws in H1 by (by repeat constructor).
    + rewrite replace_fence_close_bare; [done|].
      intros a0 [_ ?]%app_inj_tail. done.
Qed.

Lemma trim_fenced lf_open lf_close t :
  trim (fenced lf_open lf_close t) = fenced lf_open lf_close t.
Proof.
  unfold trim.
  assert (trimStart (fenced lf_open lf_close t) = fenced lf_open lf_close t) as -> by done.
  unfold fenced.
  change (js "```") with ([ch "`"; ch "`"] ++ [ch "`"]).
  rewrite !(assoc_L (++)). by apply trimEnd_snoc.
Qed.

Lemma strip_fenced (t : list N) :
  replace_fence_close (replace_fence_open (trim (fenced true true t))) = t.
Proof.
  rewrite trim_fenced.
  assert (replace_fence_open (fenced true true t) = t ++ LF :: js "```") as -> by done.
  apply replace_fence_close_lf.
Qed.

(** C7.  Stripping undoes the fencing: from any text between the opening
    marker with its line feed and the line feed with the closing marker,
    trimming and the two replacements give the text back.  And for a
    response text [t] that is JSON text, the fenced text (the line feeds
    next to the markers optional) goes through trimming, fence stripping and
    [JSON.parse] to the very value that [t] itself goes to. *)
Theorem fenced_response_parses_alike (t : list N) (lf_open lf_close : bool) :
  replace_fence_close (replace_fence_open (trim (fenced true true t))) = t
  ∧ ∀ v : JSON,
      JSON_parse t = Some v →
      story_of_response {| text := Some (fenced lf_open lf_close t) |} = Ret v
      ∧ story_of_response {| text := Some t |} = Ret v.
Proof.
  split; [apply strip_fenced|]. intros v.
  unfold JSON_parse. destruct (lex LTop t) as [toks|] eqn:Ht; [|done].
  simpl. intros Hv. unfold story_of_response, parse_story_text, JSON_parse. simpl.
  split.
  - by rewrite trim_fenced, (lex_strip_fenced _ _ _ _ Ht); simpl; rewrite Hv.
  - apply lex_trim in Ht.
    rewrite (lex_replace_fence_open _ _ Ht), (lex_replace_fence_close _ _ _ Ht), Ht.
    simpl. by rewrite Hv.
Qed.

Lemma fenced_response_parses_alike_witness :
  JSON_parse (js " {} ") = Some (JObject ∅)
  ∧ story_of_response {| text := Some (fenced false true (js " {} ")) |} = Ret (JObject ∅)
  ∧ story_of_response {| text := Some (js " {} ") |} = Ret (JObject ∅).
Proof.
  split; [reflexivity|].
  apply (fenced_response_parses_alike (js " {} ") false true).
  reflexivity.
Defined.

(** ** Running programs *)

Section Running.
Context {S : Type} (b : Backend S).

Lemma run_bind {A B : Type} (p : Prog A) (f : A → Prog B) (s : S) :
  run b (bind p f) s =
  match result (run b p s) with
  | Normal a =>
      let r := run b (f a) (final (run b p s)) in
      {| result := result r;
         trace := trace (run b p s) ++ trace r;
         final := final r |}
  | Throw e =>
      {| result := Throw e; trace := trace (run b p s); final := final (run b p s) |}
  end.
Proof.
  revert s. induction p as [a|e|c req k IH|c req k IH|l a k IH]; intros s; simpl.
  - by destruct (run b (f a) s).
  - done.
  - destruct (on_generateContent b s req) as [o s']. rewrite IH. simpl.
    by destruct (result (run b (k o) s')).
  - destruct (on_generateImages b s req) as [o s']. rewrite IH. simpl.
    by destruct (result (run b (k o) s')).
  - rewrite IH. simpl. by destruct (result (run b k s)).
Qed.

(** The post-processing of the narrative response calls no backend. *)
Lemma run_story_of_response (response : GenerateContentResponse) (s : S) :
  network_calls (trace (run b (story_of_response response) s)) = []
  ∧ final (run b (story_of_response response) s) = s.
Proof.
  unfold story_of_response, parse_story_text.
  destruct (text response) as [t|]; [|done].
  by destruct (JSON_parse _).
Qed.

Lemma run_image_of_response (response : GenerateImagesResponse) (s : S) :
  trace (run b (image_of_response response) s) = []
  ∧ final (run b (image_of_response response) s) = s.
Proof.
  unfold image_of_response.
  destruct (generatedImages response) as [[|first ?]|]; [done| |done].
  by destruct (image first).
Qed.

Lemma run_lift {A : Type} (c : Completion A) (s : S) :
  run b (lift c) s = {| result := c; trace := []; final := s |}.
Proof. by destruct c. Qed.
End Running.

Lemma run_generateStory {S : Type} (b : Backend S) (ai : GoogleGenAI)
    (history choice : list N) (s : S) :
  run b (generateStory ai history choice) s =
  let os := on_generateContent b s (story_request history choice) in
  logged (EvContent ai (story_request history choice))
    (match os.1 with
     | Resolved response => run b (story_of_response response) os.2
     | Rejected e => {| result := Throw e; trace := []; final := os.2 |}
     end).
Proof.
  unfold generateStory, await_generateContent. simpl.
  destruct (on_generateContent b s _) as [[response|e] s']; simpl; [|done].
  by destruct (run b (story_of_response response) s').
Qed.

(** C1, as the code has it.  When the narrative call resolves with the text
    [t], [generateStory] rejects, with its own error, exactly when [t]
    trimmed and stripped of the fence is not JSON text; every JSON value is
    returned as parsed, whatever its fields and their types. *)
Theorem generateStory_rejects_unparsable_only {S : Type} (b : Backend S)
    (ai : GoogleGenAI) (history choice t : list N) (s s' : S) :
  on_generateContent b s (story_request history choice)
    = (Resolved {| text := Some t |}, s') →
  result (run b (generateStory ai history choice) s) =
  match JSON_parse (replace_fence_close (replace_fence_open (trim t))) with
  | Some payload => Normal payload
  | None => Throw invalid_story_format
  end.
Proof.
  intros Hb. rewrite run_generateStory, Hb. simpl.
  unfold story_of_response, parse_story_text. simpl.
  by destruct (JSON_parse _).
Qed.

Lemma generateStory_rejects_unparsable_only_witness :
  on_generateContent (scripted (js "nul") (Resolved sample_image)) tt (story_request [] [])
    = (Resolved {| text := Some (js "nul") |}, tt)
  ∧ result (run (scripted (js "nul") (Resolved sample_image))
              (generateStory sample_ai [] []) tt)
    = Throw invalid_story_format.
Proof.
  split; [reflexivity|].
  apply (generateStory_rejects_unparsable_only
           (scripted (js "nul") (Resolved sample_image)) sample_ai [] [] (js "nul") tt tt).
  reflexivity.
Defined.

Example good_text_is_valid :
  spec_valid_ScenePayload <$> JSON_parse good_text = Some true.
Proof. vm_compute. reflexivity. Qed.

(** C1, as stated, fails: a response without any field, with a number for
    [story], without choices while the game goes on, or with an unknown part
    type is returned as the payload, and [fetchNextScene] resolves. *)
Lemma generateStory_returns_ill_formed_payloads :
  let returned (t : list N) :=
    ∃ payload,
      result (run (scripted t (Resolved sample_image))
                (generateStory sample_ai [] []) tt) = Normal payload
      ∧ spec_valid_ScenePayload payload = false in
  returned (js "{}") ∧ returned mistyped_text
  ∧ returned choiceless_text ∧ returned pyramid_text
  ∧ ∃ scene_,
      result (run (scripted (js "{}") (Resolved sample_image))
                (fetchNextScene no_coercion sample_ai [] []) tt) = Normal scene_.
Proof.
  repeat split; eexists; try split; vm_compute; reflexivity.
Qed.

(** ** The two steps of [fetchNextScene] *)

Section Fetching.
Context {S : Type} (b : Backend S).
Variable ToString_other : JSON → Completion (list N).
Variable ai : GoogleGenAI.

Lemma run_fetchNextScene (history choice : list N) (s : S) :
  run b (fetchNextScene ToString_other ai history choice) s =
  let r1 := run b (generateStory ai history choice) s in
  match result r1 with
  | Normal payload =>
      let r2 := run b (after_story ToString_other ai payload) (final r1) in
      {| result := result r2; trace := trace r1 ++ trace r2; final := final r2 |}
  | Throw e => {| result := Throw e; trace := trace r1; final := final r1 |}
  end.
Proof. unfold fetchNextScene. by rewrite run_bind. Qed.

Lemma run_after_story (payload : JSON) (s : S) :
  run b (after_story ToString_other ai payload) s =
  match get_field payload f_imagePrompt with
  | Throw e => {| result := Throw e; trace := []; final := s |}
  | Normal value =>
      match ToString ToString_other value with
      | Throw e => {| result := Throw e; trace := []; final := s |}
      | Normal prompt_text =>
          let os := on_generateImages b s (image_request prompt_text) in
          logged (EvImages ai (image_request prompt_text))
            {| result :=
                 match os.1 with
                 | Rejected e => Throw e
                 | Resolved response =>
                     match result (run b (image_of_response response) os.2) with
                     | Normal url =>
                         Normal (<[js "imageUrl" := JString url]> (own_enumerable payload))
                     | Throw e => Throw e
                     end
                 end;
               trace := [];
               final := os.2 |}
      end
  end.
Proof.
  unfold after_story, generateImage, await_generateImages.
  destruct (get_field payload f_imagePrompt) as [value|e]; [|done]. simpl.
  destruct (ToString ToString_other value) as [prompt_text|e]; [|done]. simpl.
  destruct (on_generateImages b s _) as [[response|e] s']; simpl; [|done].
  rewrite run_bind.
  destruct (run_image_of_response b response s') as [Ht Hf].
  destruct (run b (image_of_response response) s') as [[url|e] tr fin];
    simpl in *; by subst.
Qed.

Lemma calls_generateStory (history choice : list N) (s : S) :
  network_calls (trace (run b (generateStory ai history choice) s))
  = [EvContent ai (story_request history choice)].
Proof.
  rewrite run_generateStory. simpl.
  destruct (on_generateContent b s _) as [[response|e] s']; simpl; [|done].
  destruct (run_story_of_response b response s') as [H _].
  unfold network_calls in *. rewrite filter_cons_True by done. by rewrite H.
Qed.

(** C6.  [fetchNextScene] sends the narrative request first and at most
    one image request after it, and nothing twice.  The image request is
    for model [imagen-4.0-generate-001], one JPEG image, 16:9, and its
    prompt is what the payload of the narrative response reads at
    [imagePrompt], as a string, followed by
    [", on the planet Mars, sci-fi, realistic"]: for a payload object whose
    [imagePrompt] is the string [p], the two requests are the narrative one
    and the one whose prompt is [p] with that suffix.  When the narrative
    step throws, no image request is sent and the call rejects with that
    error; when the image call is rejected, or resolves without an image,
    the call rejects with that error or with the module's own; a call that
    resolves has sent exactly the two requests. *)
Theorem fetchNextScene_two_steps_no_retry (history choice : list N) (s : S) :
  let r := run b (fetchNextScene ToString_other ai history choice) s in
  let story_run := run b (generateStory ai history choice) s in
  let narrative := EvContent ai (story_request history choice) in
  let image_for (prompt_text : list N) :=
    {| gi_model := js "imagen-4.0-generate-001";
       prompt := prompt_text ++ js ", on the planet Mars, sci-fi, realistic";
       gi_config := {| numberOfImages := 1;
                       outputMimeType := js "image/jpeg";
                       aspectRatio := js "16:9" |} |} in
  (∃ images, network_calls (trace r) = narrative :: images
     ∧ (images = []
        ∨ ∃ payload value prompt_text,
            result story_run = Normal payload
            ∧ get_field payload f_imagePrompt = Normal value
            ∧ (∀ m, payload = JObject m → value = m !! js "imagePrompt")
            ∧ ToString ToString_other value = Normal prompt_text
            ∧ (∀ p, value = Some (JString p) → prompt_text = p)
            ∧ images = [EvImages ai (image_for prompt_text)]))
  ∧ (∀ e s', on_generateContent b s (story_request history choice) = (Rejected e, s') →
       result r = Throw e ∧ network_calls (trace r) = [narrative])
  ∧ (∀ e, result story_run = Throw e →
       result r = Throw e ∧ network_calls (trace r) = [narrative])
  ∧ (∀ payload value prompt_text,
       result story_run = Normal payload →
       get_field payload f_imagePrompt = Normal value →
       ToString ToString_other value = Normal prompt_text →
       let os := on_generateImages b (final story_run) (image_for prompt_text) in
       (∀ e, os.1 = Rejected e → result r = Throw e)
       ∧ (∀ response, os.1 = Resolved response →
            generatedImages response = None ∨ generatedImages response = Some [] →
            result r = Throw no_image))
  ∧ (∀ scene_, result r = Normal scene_ →
       ∃ req, network_calls (trace r) = [narrative; EvImages ai req])
  ∧ (∀ (m : gmap (list N) JSON) (p : list N),
       result story_run = Normal (JObject m) →
       m !! js "imagePrompt" = Some (JString p) →
       network_calls (trace r) = [narrative; EvImages ai (image_for p)]).
Proof.
  intros r story_run narrative image_for.
  assert (Hcalls := calls_generateStory history choice s).
  fold story_run narrative in Hcalls.
  assert (Hr : r = _) by apply run_fetchNextScene. fold story_run in Hr. simpl in Hr.
  assert (Himg : ∀ prompt_text, image_request prompt_text = image_for prompt_text)
    by done.
  split; [|split; [|split; [|split; [|split]]]].
  - destruct (result story_run) as [payload|e] eqn:Hs; rewrite Hr.
    + rewrite run_after_story. simpl. unfold network_calls in *.
      rewrite filter_app, Hcalls.
      destruct (get_field payload f_imagePrompt) as [value|e] eqn:Hg;
        [|exists []; auto].
      destruct (ToString ToString_other value) as [prompt_text|e] eqn:Ht;
        [|exists []; auto].
      eexists. split; [done|]. right. exists payload, value, prompt_text.
      split; [done|]. split; [done|]. split.
      { intros m ->. simpl in Hg. by injection Hg as <-. }
      split; [done|]. split; [|done].
      intros p ->. simpl in Ht. by injection Ht as <-.
    + exists []. auto.
  - intros e s' Hb. unfold story_run in *. rewrite run_generateStory, Hb in Hr, Hcalls.
    simpl in *. by rewrite Hr.
  - intros e He. rewrite He in Hr. by rewrite Hr.
  - intros payload value prompt_text Hs Hg Ht os. rewrite Hs in Hr.
    rewrite run_after_story, Hg, Ht in Hr. unfold os. rewrite <- Himg.
    rewrite Hr. simpl. split.
    + by intros e ->.
    + intros response -> Hz. unfold image_of_response. by destruct Hz as [-> | ->].
  - intros scene_ Hn. rewrite Hr in Hn |- *.
    destruct (result story_run) as [payload|e]; [|done].
    rewrite run_after_story in Hn |- *. simpl. unfold network_calls in *.
    rewrite filter_app, Hcalls.
    destruct (get_field payload f_imagePrompt) as [value|e]; [|done].
    destruct (ToString ToString_other value) as [prompt_text|e]; [|done].
    by eexists.
  - intros m p Hs Hm. rewrite Hs in Hr. rewrite Hr.
    assert (get_field (JObject m) f_imagePrompt = Normal (Some (JString p))) as Hg
      by exact (f_equal Normal Hm).
    rewrite run_after_story, Hg. cbn [result trace final ToString logged].
    unfold network_calls in *. by rewrite filter_app, Hcalls.
Qed.
End Fetching.

Lemma fetchNextScene_two_steps_no_retry_witness :
  result (run (scripted good_text (Resolved {| generatedImages := Some [] |}))
            (fetchNextScene no_coercion sample_ai [] []) tt) = Throw no_image
  ∧ result (run (unreachable (Rejection (js "503")))
            (fetchNextScene no_coercion sample_ai [] []) tt) = Throw (Rejection (js "503"))
  ∧ network_calls (trace (run (scripted good_text (Resolved sample_image))
                            (fetchNextScene no_coercion sample_ai [] []) tt))
    = [EvContent sample_ai (story_request [] []);
       EvImages sample_ai
         {| gi_model := js "imagen-4.0-generate-001";
            prompt := js "a red plain" ++ js ", on the planet Mars, sci-fi, realistic";
            gi_config := {| numberOfImages := 1;
                            outputMimeType := js "image/jpeg";
                            aspectRatio := js "16:9" |} |}].
Proof.
  split; [|split].
  - destruct (fetchNextScene_two_steps_no_retry
                (scripted good_text (Resolved {| generatedImages := Some [] |}))
                no_coercion sample_ai [] [] tt) as (_ & _ & _ & H & _).
    eapply H; [vm_compute; reflexivity | vm_compute; reflexivity | reflexivity
              | reflexivity | right; reflexivity].
  - destruct (fetchNextScene_two_steps_no_retry
                (unreachable (Rejection (js "503")))
                no_coercion sample_ai [] [] tt) as (_ & H & _).
    eapply H. reflexivity.
  - destruct (fetchNextScene_two_steps_no_retry
                (scripted good_text (Resolved sample_image))
                no_coercion sample_ai [] [] tt) as (_ & _ & _ & _ & _ & H).
    eapply H; vm_compute; reflexivity.
Defined.

(** ** The narrative request *)

(** C8.  [generateStory] sends one narrative request.  With the empty
    history its content is the fixed opening scenario, whatever the choice;
    with any other history it is the template with the history and the
    chosen action, the latter between double quotes, in it. *)
Theorem generateStory_request_content {S : Type} (b : Backend S) (ai : GoogleGenAI)
    (history choice : list N) (s : S) :
  ∃ req,
    network_calls (trace (run b (generateStory ai history choice) s))
      = [EvContent ai req]
    ∧ (history = [] → contents req = intro_content)
    ∧ (history ≠ [] →
         contents req =
           js "Here is the story so far:" ++ [LF] ++ history ++ [LF; LF]
           ++ js "The player chose to: " ++ [DQUOTE] ++ choice ++ [DQUOTE]
           ++ js "." ++ [LF; LF] ++ js "Continue the story. What happens next?").
Proof.
  exists (story_request history choice). split; [apply calls_generateStory|].
  split.
  - by intros ->.
  - by destruct history.
Qed.

Lemma generateStory_request_content_witness :
  ∃ req,
    network_calls (trace (run (scripted good_text (Resolved sample_image))
                            (generateStory sample_ai (js "Dust.") (js "Dig in")) tt))
      = [EvContent sample_ai req]
    ∧ contents req =
        js "Here is the story so far:" ++ [LF] ++ js "Dust." ++ [LF; LF]
        ++ js "The player chose to: " ++ [DQUOTE] ++ js "Dig in" ++ [DQUOTE]
        ++ js "." ++ [LF; LF] ++ js "Continue the story. What happens next?".
Proof.
  destruct (generateStory_request_content (scripted good_text (Resolved sample_image))
              sample_ai (js "Dust.") (js "Dig in") tt) as (req & H1 & _ & H3).
  exists req. split; [exact H1|]. apply H3. discriminate.
Defined.

(** ** Module evaluation *)

(** C9.  Without [API_KEY] in the environment, evaluating the module throws
    its error before any client is constructed; the module has no export to
    give, so whatever a program that imports it would do with
    [fetchNextScene], that program fails with the same error and sends no
    request, against any backend. *)
Theorem load_without_API_KEY_throws (env : gmap (list N) (list N)) :
  env !! js "API_KEY" = None →
  completion (load_story_service env)
    = Throw (Error (js "API_KEY environment variable is not set."))
  ∧ constructed (load_story_service env) = []
  ∧ (∀ ai : GoogleGenAI, completion (load_story_service env) ≠ Normal ai)
  ∧ (∀ ToString_other,
       story_service_module ToString_other env
       = Throw (Error (js "API_KEY environment variable is not set.")))
  ∧ (∀ (S A : Type) (b : Backend S) (s : S)
       (ToString_other : JSON → Completion (list N)) (body : Exports → Prog A),
       run b (importing ToString_other env body) s
       = {| result := Throw (Error (js "API_KEY environment variable is not set."));
            trace := [];
            final := s |}).
Proof.
  intros H.
  assert (load_story_service env
          = {| completion := Throw (Error (js "API_KEY environment variable is not set."));
               constructed := [] |}) as Hl
    by (unfold load_story_service; by rewrite H).
  split; [by rewrite Hl|]. split; [by rewrite Hl|]. split; [by rewrite Hl|].
  assert (∀ ToString_other,
            story_service_module ToString_other env
            = Throw (Error (js "API_KEY environment variable is not set."))) as Hm
    by (intros tso; unfold story_service_module; by rewrite Hl).
  split; [exact Hm|].
  intros S A b s tso body. unfold importing. by rewrite Hm.
Qed.

Lemma load_without_API_KEY_throws_witness :
  completion (load_story_service (<[js "HOME" := js "/root"]> ∅))
    = Throw (Error (js "API_KEY environment variable is not set."))
  ∧ run (scripted good_text (Resolved sample_image))
      (importing no_coercion (<[js "HOME" := js "/root"]> ∅)
         (λ exports, exported_fetchNextScene exports [] (js "Dig in"))) tt
    = {| result := Throw (Error (js "API_KEY environment variable is not set."));
         trace := [];
         final := tt |}.
Proof.
  destruct (load_without_API_KEY_throws (<[js "HOME" := js "/root"]> ∅))
    as (H1 & _ & _ & _ & H5); [vm_compute; reflexivity|].
  split; [exact H1|apply H5].
Defined.

(** With the credential, the same importer does reach the backend, through
    the client that holds it. *)
Lemma importing_with_API_KEY {S A : Type} (b : Backend S) (s : S)
    (ToString_other : JSON → Completion (list N)) (env : gmap (list N) (list N))
    (c : N) (k history choice : list N) :
  env !! js "API_KEY" = Some (c :: k) →
  (∀ body : Exports → Prog A,
     importing ToString_other env body
     = body {| exported_fetchNextScene :=
                 fetchNextScene ToString_other {| apiKey := c :: k |} |})
  ∧ ∃ later,
      network_calls
        (trace (run b (importing ToString_other env
                         (λ exports, exported_fetchNextScene exports history choice)) s))
      = EvContent {| apiKey := c :: k |} (story_request history choice) :: later.
Proof.
  intros H.
  assert (∀ B (body : Exports → Prog B),
            importing ToString_other env body
            = body {| exported_fetchNextScene :=
                        fetchNextScene ToString_other {| apiKey := c :: k |} |}) as Hi.
  { intros B body. unfold importing, story_service_module, load_story_service.
    by rewrite H. }
  split; [apply Hi|]. rewrite Hi. cbn [exported_fetchNextScene].
  pose proof (calls_generateStory b {| apiKey := c :: k |} history choice s) as Hc.
  rewrite run_fetchNextScene. cbv zeta.
  destruct (result (run b (generateStory _ history choice) s)) as [payload|e];
    cbn [result trace final]; [|by exists []].
  unfold network_calls in *. rewrite filter_app, Hc. by eexists.
Qed.

(** ** The scene that [fetchNextScene] returns *)

Lemma index_key_not_field (i : nat) (f : payload_field) : index_key i ≠ field_name f.
Proof.
  unfold index_key. generalize (Nat.to_uint i). intros u.
  destruct u, f; discriminate.
Qed.

Lemma lookup_indexed_field {A : Type} (g : nat → A → JSON) (l : list A) (f : payload_field) :
  (list_to_map (imap (λ i e, (index_key i, g i e)) l) : gmap (list N) JSON)
    !! field_name f = None.
Proof.
  apply not_elem_of_list_to_map_1.
  intros ((k & v) & Hk & Hin)%list_elem_of_fmap.
  apply elem_of_lookup_imap in Hin as (i & e & [= -> ->] & _).
  simpl in Hk. symmetry in Hk. by apply index_key_not_field in Hk.
Qed.

Lemma get_field_own_enumerable (payload : JSON) (f : payload_field) :
  payload ≠ JNull →
  get_field payload f = Normal (own_enumerable payload !! field_name f).
Proof.
  destruct payload as [|bo|l|st|l|m]; try done; intros _; simpl.
  - by rewrite (lookup_indexed_field (λ _ c, JString [c])).
  - by rewrite (lookup_indexed_field (λ _ e, e)).
Qed.

(** C10.  The scene of a resolved [fetchNextScene] reads, at each payload
    field, what the payload returned by [generateStory] reads there; its
    [imageUrl] is the image reference, and every other property is the
    payload's own. *)
Theorem fetchNextScene_keeps_payload_fields {S : Type} (b : Backend S)
    (ToString_other : JSON → Completion (list N)) (ai : GoogleGenAI)
    (history choice : list N) (s : S) (scene_ : gmap (list N) JSON) :
  result (run b (fetchNextScene ToString_other ai history choice) s) = Normal scene_ →
  ∃ payload url,
    result (run b (generateStory ai history choice) s) = Normal payload
    ∧ (∀ f, get_field payload f = Normal (scene_ !! field_name f))
    ∧ scene_ !! js "imageUrl" = Some (JString url)
    ∧ (∀ k, k ≠ js "imageUrl" → scene_ !! k = own_enumerable payload !! k).
Proof.
  rewrite run_fetchNextScene. cbv zeta.
  destruct (result (run b (generateStory ai history choice) s)) as [payload|e];
    simpl; [|done].
  rewrite run_after_story.
  destruct (get_field payload f_imagePrompt) as [value|e] eqn:Hg; simpl; [|done].
  destruct (ToString ToString_other value) as [prompt_text|e]; simpl; [|done].
  destruct (on_generateImages b _ _) as [[response|e] s']; simpl; [|done].
  destruct (result (run b (image_of_response response) s')) as [url|e]; [|done].
  intros [= <-]. exists payload, url.
  assert (payload ≠ JNull) as Hnn by (by intros ->).
  split; [done|]. split; [|split].
  - intros f. rewrite get_field_own_enumerable by done.
    rewrite lookup_insert_ne; [done|]. by destruct f.
  - by rewrite lookup_insert_eq.
  - intros k Hk. by rewrite lookup_insert_ne.
Qed.

Lemma fetchNextScene_keeps_payload_fields_witness :
  ∃ scene_ payload url,
    result (run (scripted good_text (Resolved sample_image))
              (fetchNextScene no_coercion sample_ai [] []) tt) = Normal scene_
    ∧ result (run (scripted good_text (Resolved sample_image))
                (generateStory sample_ai [] []) tt) = Normal payload
    ∧ (∀ f, get_field payload f = Normal (scene_ !! field_name f))
    ∧ scene_ !! js "imageUrl" = Some (JString url)
    ∧ (∀ k, k ≠ js "imageUrl" → scene_ !! k = own_enumerable payload !! k).
Proof.
  eexists.
  assert (H : result (run (scripted good_text (Resolved sample_image))
              (fetchNextScene no_coercion sample_ai [] []) tt) = Normal _)
    by (vm_compute; reflexivity).
  destruct (fetchNextScene_keeps_payload_fields _ _ _ _ _ _ _ H) as (payload & url & H').
  exists payload, url. split; [exact H | exact H'].
Defined.

(** ** The scene graph under the parts effect *)

Lemma scene_remove_fresh (children : list Object3D) (o : Object3D) :
  Forall (λ c, object_id c ≠ object_id o) children → scene_remove children o = children.
Proof.
  induction 1 as [|c r Hc _ IH]; [done|]. simpl.
  destruct (Nat.eqb_spec (object_id c) (object_id o)); [done|]. by rewrite IH.
Qed.

Lemma scene_remove_cons (c : Object3D) (r : list Object3D) (o : Object3D) :
  scene_remove (c :: r) o =
  if (object_id c =? object_id o)%nat then r else c :: scene_remove r o.
Proof. done. Qed.

Lemma scene_add_fresh (children : list Object3D) (o : Object3D) :
  Forall (λ c, object_id c < object_id o)%nat children →
  scene_add children o = children ++ [o].
Proof.
  intros H. unfold scene_add. rewrite scene_remove_fresh; [done|].
  eapply Forall_impl; [exact H|]. simpl. lia.
Qed.

(** The clearing loop stops with the lights, within its bound. *)
Lemma clear_parts_lights (old : list Object3D) (fuel : nat) :
  Forall (λ o, 4 ≤ object_id o)%nat old → (length old ≤ fuel)%nat →
  clear_parts fuel (lights ++ old) = lights.
Proof.
  revert fuel. induction old as [|o old IH]; intros fuel Hold Hfuel.
  - by destruct fuel.
  - destruct fuel as [|fuel]; [simpl in Hfuel; lia|].
    apply Forall_cons in Hold as [Ho Hold]. simpl in Hfuel.
    change (clear_parts (S fuel) (lights ++ o :: old))
      with (clear_parts fuel (scene_remove (lights ++ o :: old) o)).
    assert (scene_remove (lights ++ o :: old) o = lights ++ old) as ->.
    { unfold lights.
      change ([ambientLight 2; directionalLight 3] ++ o :: old)
        with (ambientLight 2 :: directionalLight 3 :: o :: old).
      rewrite !scene_remove_cons.
      destruct (Nat.eqb_spec (object_id (ambientLight 2)) (object_id o)) as [E|_];
        [simpl in E; lia|].
      destruct (Nat.eqb_spec (object_id (directionalLight 3)) (object_id o)) as [E|_];
        [simpl in E; lia|].
      by rewrite Nat.eqb_refl. }
    apply IH; [done|lia].
Qed.

Lemma part_mesh_id (i : nat) (m : MeshStandardMaterial) (g : Geometry) (part : HabitatPart) :
  object_id (part_mesh i m g part) = i.
Proof. done. Qed.

Lemma meshes_from_ids (parts : list HabitatPart) (i : nat) :
  Forall (λ o, i ≤ object_id o < i + length (meshes_from i parts))%nat
         (meshes_from i parts).
Proof.
  revert i. induction parts as [|part rest IH]; intros i; simpl; [done|].
  destruct (part_geometry (partType part)) as [g|]; [|done].
  constructor; simpl; [lia|].
  eapply Forall_impl; [apply IH|]. simpl. lia.
Qed.

Lemma foldl_add_part (parts : list HabitatPart) (i : nat) (children : list Object3D) :
  Forall (λ o, object_id o < i)%nat children →
  foldl (add_part habitat_material) (i, children) parts
  = (i + length (meshes_from i parts), children ++ meshes_from i parts)%nat.
Proof.
  revert i children. induction parts as [|part rest IH]; intros i children Hc; simpl.
  - by rewrite Nat.add_0_r, app_nil_r.
  - unfold add_part at 2. simpl.
    destruct (part_geometry (partType part)) as [g|]; [|by apply IH].
    rewrite scene_add_fresh by done.
    rewrite IH.
    + rewrite <- (assoc_L (++)). simpl. f_equal. lia.
    + apply Forall_app. split; [|by repeat constructor].
      eapply Forall_impl; [exact Hc|]. simpl. lia.
Qed.

Lemma parts_effect_mounted (parts : list HabitatPart) (v : Viewer) :
  mounted_viewer v →
  sceneRef (parts_effect parts v)
    = Some (lights ++ meshes_from (next_object_id v) parts)
  ∧ mounted_viewer (parts_effect parts v).
Proof.
  intros (old & Hs & Hold & Hn).
  assert (parts_effect parts v =
          {| next_object_id := next_object_id v
                               + length (meshes_from (next_object_id v) parts);
             sceneRef := Some (lights ++ meshes_from (next_object_id v) parts) |}) as ->.
  { unfold parts_effect. rewrite Hs.
    rewrite clear_parts_lights.
    - rewrite foldl_add_part; [done|]. repeat constructor; simpl; lia.
    - eapply Forall_impl; [exact Hold|]. simpl. lia.
    - rewrite length_app. lia. }
  split; [done|]. eexists. split; [done|]. simpl. split; [|lia].
  eapply Forall_impl; [apply meshes_from_ids|]. simpl. lia.
Qed.

Lemma HabitatViewer_effects_mounted (first : list HabitatPart)
    (updates : list (list HabitatPart)) :
  mounted_viewer (HabitatViewer_effects first updates).
Proof.
  unfold HabitatViewer_effects.
  assert (mounted_viewer
            (parts_effect first (mount_effect true {| next_object_id := 0; sceneRef := None |})))
    as H0.
  { apply parts_effect_mounted. exists []. split; [done|]. simpl. split; [done|lia]. }
  revert H0. generalize (parts_effect first (mount_effect true {| next_object_id := 0; sceneRef := None |})).
  induction updates as [|parts updates IH]; intros v Hv; simpl; [done|].
  apply IH. by apply parts_effect_mounted.
Qed.

Lemma part_geometry_recognized (t : list N) :
  recognized_partType t = true ↔ is_Some (part_geometry t).
Proof.
  unfold recognized_partType, part_geometry, part_types.
  rewrite bool_decide_eq_true.
  repeat case_decide; subst; split; intros Hx;
    try (by eexists); try (by repeat constructor);
    try (by destruct Hx).
  repeat (apply elem_of_cons in Hx as [?|Hx]; [done|]). by apply elem_of_nil in Hx.
Qed.

Lemma meshes_from_parts (parts : list HabitatPart) (i : nat) :
  Forall2 (λ o part,
             ∃ g, part_geometry (partType part) = Some g
                  ∧ kind o = Mesh g habitat_material
                  ∧ obj_position o = position part
                  ∧ obj_rotation o = rotation part
                  ∧ obj_scale o = scale part)
          (meshes_from i parts)
          (filter (λ part, recognized_partType (partType part) = true) parts).
Proof.
  revert i. induction parts as [|part rest IH]; intros i; simpl; [constructor|].
  destruct (part_geometry (partType part)) as [g|] eqn:Hg.
  - rewrite filter_cons_True by (apply part_geometry_recognized; by rewrite Hg).
    constructor; [|apply IH].
    exists g. destruct part as [? ? [] [] []]. done.
  - rewrite filter_cons_False; [apply IH|].
    rewrite part_geometry_recognized, Hg. by intros [].
Qed.

(** C3.  In a mounted viewer, whatever part lists came before, a run of
    the effect first empties the scene of every mesh and of nothing else,
    within the bound of its loop, and leaves the two lights followed by the
    meshes of the new list: one for each part of a recognized type, in list
    order, with that part's geometry and transform.  The meshes are new
    objects: none of the earlier ones is kept. *)
Theorem parts_effect_full_replace (first : list HabitatPart)
    (updates : list (list HabitatPart)) (parts : list HabitatPart) :
  let before := HabitatViewer_effects first updates in
  let after := parts_effect parts before in
  after = HabitatViewer_effects first (updates ++ [parts])
  ∧ ∃ old,
      sceneRef before = Some (lights ++ old)
      ∧ clear_parts (length (lights ++ old)) (lights ++ old) = lights
      ∧ sceneRef after = Some (lights ++ meshes_from (next_object_id before) parts)
      ∧ Forall (λ o, o ∉ lights ++ meshes_from (next_object_id before) parts) old
      ∧ Forall2 (λ o part,
                   ∃ g, part_geometry (partType part) = Some g
                        ∧ kind o = Mesh g habitat_material
                        ∧ obj_position o = position part
                        ∧ obj_rotation o = rotation part
                        ∧ obj_scale o = scale part)
                (meshes_from (next_object_id before) parts)
                (filter (λ part, recognized_partType (partType part) = true) parts).
Proof.
  intros before after. split.
  { unfold after, before, HabitatViewer_effects. by rewrite foldl_app. }
  destruct (HabitatViewer_effects_mounted first updates) as (old & Hs & Hold & Hn).
  fold before in Hs, Hold, Hn.
  exists old. split; [done|]. split; [|split; [|split]].
  - apply clear_parts_lights.
    + eapply Forall_impl; [exact Hold|]. simpl. lia.
    + rewrite length_app. lia.
  - apply parts_effect_mounted. by exists old.
  - eapply Forall_impl; [exact Hold|]. cbv beta. intros o Ho Hin.
    apply elem_of_app in Hin as [Hin|Hin].
    + unfold lights in Hin.
      repeat (apply elem_of_cons in Hin as [->|Hin]; [simpl in Ho; lia|]).
      by apply elem_of_nil in Hin.
    + pose proof (meshes_from_ids parts (next_object_id before)) as Hids.
      rewrite Forall_forall in Hids. apply Hids in Hin. lia.
  - apply meshes_from_parts.
Qed.

(** C4.  The geometry of a mesh is read off the part type alone:
    a cylinder of radius 0.5 and height 1 for CYLINDER, the upper half
    (polar angle from 0 over a quarter turn) of a sphere of radius 0.5 for
    DOME, a cylinder of radius 0.2 and height 1 for TUBE, a box of 0.4 by
    0.6 by 0.4 for AIRLOCK; the mesh added for a part carries that geometry
    and the part's position, rotation and scale.  The lander alone yields
    the two lights and one such cylinder at the origin, unrotated, with
    scale one. *)
Theorem part_geometry_mapping :
  part_geometry (js "CYLINDER") = Some (CylinderGeometry 0.5 0.5 1 32)
  ∧ part_geometry (js "DOME")
    = Some (SphereGeometry 0.5 32 16 0 (Math_PI * 2) 0 (Math_PI / 2))
  ∧ part_geometry (js "TUBE") = Some (CylinderGeometry 0.2 0.2 1 24)
  ∧ part_geometry (js "AIRLOCK") = Some (BoxGeometry 0.4 0.6 0.4)
  ∧ (∀ (part : HabitatPart) (g : Geometry) (st : nat * list Object3D),
       part_geometry (partType part) = Some g →
       ∃ mesh,
         add_part habitat_material st part = (S st.1, scene_add st.2 mesh)
         ∧ kind mesh = Mesh g habitat_material
         ∧ obj_position mesh = position part
         ∧ obj_rotation mesh = rotation part
         ∧ obj_scale mesh = scale part)
  ∧ (∀ id_ : list N,
       sceneRef (HabitatViewer_effects [lander id_] [])
       = Some (lights ++
               [{| object_id := 4;
                   kind := Mesh (CylinderGeometry 0.5 0.5 1 32) habitat_material;
                   obj_position := vec3 0 0 0;
                   obj_rotation := vec3 0 0 0;
                   obj_scale := vec3 1 1 1 |}])).
Proof.
  repeat split; try reflexivity.
  intros part g st Hg. unfold add_part. rewrite Hg.
  eexists. split; [reflexivity|]. destruct part as [? ? [] [] []]. done.
Qed.

Lemma part_geometry_mapping_witness :
  ∃ mesh,
    add_part habitat_material (4%nat, lights)
      {| id := js "p1"; partType := js "TUBE";
         position := vec3 1 0 2; rotation := vec3 0 0.5 0; scale := vec3 1 3 1 |}
    = (5%nat, scene_add lights mesh)
    ∧ kind mesh = Mesh (CylinderGeometry 0.2 0.2 1 24) habitat_material
    ∧ obj_position mesh = vec3 1 0 2
    ∧ obj_rotation mesh = vec3 0 0.5 0
    ∧ obj_scale mesh = vec3 1 3 1.
Proof.
  destruct part_geometry_mapping as (_ & _ & _ & _ & H & _).
  apply (H {| id := js "p1"; partType := js "TUBE";
              position := vec3 1 0 2; rotation := vec3 0 0.5 0; scale := vec3 1 3 1 |}
           (CylinderGeometry 0.2 0.2 1 24) (4%nat, lights)).
  reflexivity.
Defined.

(** C5.  A part whose type is none of the four is skipped: the callback
    leaves the identity counter and the scene as they are, so the effect
    ends as it does on the list without that part.  The effect is a total
    function with no error outcome. *)
Theorem unrecognized_part_is_skipped (part : HabitatPart) :
  partType part ∉ part_types →
  (∀ st, add_part habitat_material st part = st)
  ∧ (∀ i, meshes_from i [part] = [])
  ∧ (∀ (before after : list HabitatPart) (v : Viewer),
       parts_effect (before ++ part :: after) v = parts_effect (before ++ after) v).
Proof.
  intros Hp.
  assert (part_geometry (partType part) = None) as Hg.
  { destruct (part_geometry (partType part)) eqn:Hg; [|done].
    destruct Hp. apply (bool_decide_eq_true_1 (partType part ∈ part_types)).
    apply part_geometry_recognized. by rewrite Hg. }
  assert (∀ st, add_part habitat_material st part = st) as Hskip.
  { intros st. unfold add_part. by rewrite Hg. }
  split; [done|]. split.
  - intros i. simpl. by rewrite Hg.
  - intros before after v. unfold parts_effect.
    destruct (sceneRef v) as [children|]; [|done].
    by rewrite !foldl_app; simpl; rewrite Hskip.
Qed.

Lemma unrecognized_part_is_skipped_witness :
  add_part habitat_material (4%nat, lights)
    {| id := js "p2"; partType := js "PYRAMID";
       position := vec3 0 0 0; rotation := vec3 0 0 0; scale := vec3 1 1 1 |}
  = (4%nat, lights).
Proof.
  apply (unrecognized_part_is_skipped
           {| id := js "p2"; partType := js "PYRAMID";
              position := vec3 0 0 0; rotation := vec3 0 0 0; scale := vec3 1 1 1 |}).
  vm_compute. intros H. repeat (apply elem_of_cons in H as [H|H]; [discriminate H|]).
  by apply elem_of_nil in H.
Defined.

(** ** The choices on screen *)

Lemma flat_map_nil {A B : Type} (f : A → list B) (l : list A) :
  Forall (λ a, f a = []) l → flat_map f l = [].
Proof. induction 1 as [|a l Ha _ IH]; simpl; [done|]. by rewrite Ha, IH. Qed.

Lemma inventory_panel_plain (items : list (list N)) :
  offered_choices (inventory_panel items) = [] ∧ buttons (inventory_panel items) = [].
Proof.
  destruct items as [|item items]; [done|].
  unfold inventory_panel.
  generalize (item :: items). intros l. simpl.
  split; apply flat_map_nil, Forall_forall;
    by intros ? (i & e & -> & _)%elem_of_lookup_imap.
Qed.

Lemma log_panel_plain (log : list StoryLogEntry) :
  offered_choices (log_panel log) = [] ∧ buttons (log_panel log) = [].
Proof.
  destruct log as [|entry log]; [done|].
  unfold log_panel.
  generalize (reverse (entry :: log)). intros l. simpl.
  split; apply flat_map_nil, Forall_forall;
    by intros ? (e & -> & _)%list_elem_of_fmap.
Qed.

(** C2.  Once the scene says [gameOver], the panel offers no choice, even
    with a non-empty list of choices: no element carries a choice handler,
    and the only button left is the download button of the habitat viewer. *)
Theorem GameUI_hides_choices_when_gameOver (p : GameUIProps) (s : Scene) :
  scene p = Some s → gameOver s = true →
  offered_choices (GameUI p) = [] ∧ buttons (GameUI p) = [Some DownloadStl].
Proof.
  intros Hs Hover.
  destruct (inventory_panel_plain (inventory p)) as [Hi1 Hi2].
  destruct (log_panel_plain (storyLog p)) as [Hl1 Hl2].
  unfold GameUI, image_panel, story_panel, choices_panel.
  rewrite Hs, Hover, andb_false_r.
  cbn [offered_choices buttons flat_map app el String.eqb HabitatViewer_render].
  rewrite Hi1, Hi2, Hl1, Hl2.
  by destruct (isLoading p).
Qed.

Lemma GameUI_hides_choices_when_gameOver_witness :
  let s := {| story := js "The dome fails."; imagePrompt := js "ruins";
              choices := [js "Dig in"; js "Walk on"]; newItem := None;
              gameOver := true; habitatUpdate := None; imageUrl := js "data:" |} in
  let p := {| scene := Some s; storyLog := [{| entry_id := 0; entry_story := js "Dust." |}];
              inventory := [js "Medkit"]; habitatParts := [lander (js "p0")];
              isLoading := false |} in
  offered_choices (GameUI p) = [] ∧ buttons (GameUI p) = [Some DownloadStl].
Proof.
  intros s p. apply (GameUI_hides_choices_when_gameOver p s); reflexivity.
Defined.

(** * Further properties of the sources *)

(** ** Module evaluation and the credential *)

(** X1.  Evaluating the service module yields a client exactly when
    [API_KEY] is set to a non-empty string, and the client then holds that
    string; an empty [API_KEY] throws like a missing one. *)
Theorem load_story_service_succeeds_iff (env : gmap (list N) (list N))
    (ai : GoogleGenAI) :
  (completion (load_story_service env) = Normal ai
   ↔ env !! js "API_KEY" = Some (apiKey ai) ∧ apiKey ai ≠ [])
  ∧ (env !! js "API_KEY" = Some [] →
     completion (load_story_service env)
       = Throw (Error (js "API_KEY environment variable is not set."))
     ∧ constructed (load_story_service env) = []).
Proof.
  unfold load_story_service. split.
  - destruct (env !! js "API_KEY") as [[|c k]|]; simpl; split; try done.
    + by intros [[= <-] ?].
    + intros [= <-]. done.
    + intros [[= ->] _]. by destruct ai.
    + by intros [? ?].
  - by intros ->.
Qed.

Lemma load_story_service_succeeds_iff_witness :
  completion (load_story_service (<[js "API_KEY" := []]> ∅))
    = Throw (Error (js "API_KEY environment variable is not set."))
  ∧ constructed (load_story_service (<[js "API_KEY" := []]> ∅)) = [].
Proof.
  apply (load_story_service_succeeds_iff (<[js "API_KEY" := []]> ∅) sample_ai).
  vm_compute. reflexivity.
Defined.

(** ** Failures of the narrative step *)

Section NarrativeFailures.
Context {S : Type} (b : Backend S).
Variable ToString_other : JSON → Completion (list N).
Variable ai : GoogleGenAI.

Lemma run_fetchNextScene_story_throws (history choice : list N) (s : S) (e : JSError) :
  result (run b (generateStory ai history choice) s) = Throw e →
  run b (fetchNextScene ToString_other ai history choice) s
  = {| result := Throw e;
       trace := trace (run b (generateStory ai history choice) s);
       final := final (run b (generateStory ai history choice) s) |}.
Proof. intros H. rewrite run_fetchNextScene. cbv zeta. by rewrite H. Qed.

(** X2.  A narrative response without text makes [fetchNextScene] reject
    with a [TypeError]: one request was sent, nothing was logged and no
    image was asked for. *)
Theorem fetchNextScene_text_undefined (history choice : list N) (s s' : S) :
  on_generateContent b s (story_request history choice)
    = (Resolved {| text := None |}, s') →
  run b (fetchNextScene ToString_other ai history choice) s
  = {| result := Throw TypeError;
       trace := [EvContent ai (story_request history choice)];
       final := s' |}.
Proof.
  intros Hb.
  assert (run b (generateStory ai history choice) s
          = {| result := Throw TypeError;
               trace := [EvContent ai (story_request history choice)];
               final := s' |}) as Hs.
  { by rewrite run_generateStory, Hb. }
  rewrite (run_fetchNextScene_story_throws _ _ _ TypeError); by rewrite Hs.
Qed.

(** X3.  When the cleaned text is not JSON, [fetchNextScene] logs the
    trimmed text (fence included) once, rejects with the module's error and
    asks for no image. *)
Theorem fetchNextScene_unparsable (history choice t : list N) (s s' : S) :
  on_generateContent b s (story_request history choice)
    = (Resolved {| text := Some t |}, s') →
  JSON_parse (replace_fence_close (replace_fence_open (trim t))) = None →
  run b (fetchNextScene ToString_other ai history choice) s
  = {| result := Throw invalid_story_format;
       trace := [EvContent ai (story_request history choice);
                 EvConsole (js "Failed to parse JSON response:") (trim t)];
       final := s' |}.
Proof.
  intros Hb Hp.
  assert (run b (generateStory ai history choice) s
          = {| result := Throw invalid_story_format;
               trace := [EvContent ai (story_request history choice);
                         EvConsole (js "Failed to parse JSON response:") (trim t)];
               final := s' |}) as Hs.
  { rewrite run_generateStory, Hb. simpl.
    unfold story_of_response, parse_story_text. simpl. by rewrite Hp. }
  rewrite (run_fetchNextScene_story_throws _ _ _ invalid_story_format); by rewrite Hs.
Qed.

Lemma run_generateStory_parsed (history choice t : list N) (s s' : S) (payload : JSON) :
  on_generateContent b s (story_request history choice)
    = (Resolved {| text := Some t |}, s') →
  JSON_parse (replace_fence_close (replace_fence_open (trim t))) = Some payload →
  run b (generateStory ai history choice) s
  = {| result := Normal payload;
       trace := [EvContent ai (story_request history choice)];
       final := s' |}.
Proof.
  intros Hb Hp. rewrite run_generateStory, Hb. simpl.
  unfold story_of_response, parse_story_text. simpl. by rewrite Hp.
Qed.

(** X4.  The JSON text [null] parses, but reading [imagePrompt] off it
    throws: [fetchNextScene] rejects with a [TypeError], silently and
    without an image request. *)
Theorem fetchNextScene_null_payload (history choice t : list N) (s s' : S) :
  on_generateContent b s (story_request history choice)
    = (Resolved {| text := Some t |}, s') →
  JSON_parse (replace_fence_close (replace_fence_open (trim t))) = Some JNull →
  run b (fetchNextScene ToString_other ai history choice) s
  = {| result := Throw TypeError;
       trace := [EvContent ai (story_request history choice)];
       final := s' |}.
Proof.
  intros Hb Hp. rewrite run_fetchNextScene. cbv zeta.
  rewrite (run_generateStory_parsed _ _ _ _ _ _ Hb Hp). cbn [result trace final].
  by rewrite run_after_story.
Qed.

(** X5.  A payload whose [imagePrompt] is the string [p] leads to one image
    request: model [imagen-4.0-generate-001], prompt [p] followed by
    [", on the planet Mars, sci-fi, realistic"], one JPEG image, 16:9. *)
Theorem fetchNextScene_image_request (history choice t p : list N) (s s' : S)
    (m : gmap (list N) JSON) :
  on_generateContent b s (story_request history choice)
    = (Resolved {| text := Some t |}, s') →
  JSON_parse (replace_fence_close (replace_fence_open (trim t))) = Some (JObject m) →
  m !! js "imagePrompt" = Some (JString p) →
  network_calls (trace (run b (fetchNextScene ToString_other ai history choice) s))
  = [EvContent ai (story_request history choice);
     EvImages ai
       {| gi_model := js "imagen-4.0-generate-001";
          prompt := p ++ js ", on the planet Mars, sci-fi, realistic";
          gi_config := {| numberOfImages := 1;
                          outputMimeType := js "image/jpeg";
                          aspectRatio := js "16:9" |} |}].
Proof.
  intros Hb Hp Hm. rewrite run_fetchNextScene. cbv zeta.
  rewrite (run_generateStory_parsed _ _ _ _ _ _ Hb Hp). cbn [result trace final].
  assert (get_field (JObject m) f_imagePrompt = Normal (Some (JString p))) as Hg
    by exact (f_equal Normal Hm).
  by rewrite run_after_story, Hg.
Qed.

(** X6.  A payload that is an object without [imagePrompt], or a number, a
    boolean, a string or an array, still leads to an image request: its
    prompt is ["undefined, on the planet Mars, sci-fi, realistic"]. *)
Theorem fetchNextScene_missing_imagePrompt (history choice t : list N) (s s' : S)
    (payload : JSON) :
  on_generateContent b s (story_request history choice)
    = (Resolved {| text := Some t |}, s') →
  JSON_parse (replace_fence_close (replace_fence_open (trim t))) = Some payload →
  get_field payload f_imagePrompt = Normal None →
  network_calls (trace (run b (fetchNextScene ToString_other ai history choice) s))
  = [EvContent ai (story_request history choice);
     EvImages ai (image_request (js "undefined"))]
  ∧ prompt (image_request (js "undefined"))
    = js "undefined, on the planet Mars, sci-fi, realistic".
Proof.
  intros Hb Hp Hg. split; [|done]. rewrite run_fetchNextScene. cbv zeta.
  rewrite (run_generateStory_parsed _ _ _ _ _ _ Hb Hp). cbn [result trace final].
  rewrite run_after_story, Hg. done.
Qed.

(** X7.  With a resolved image call, the scene's [imageUrl] is
    [data:image/jpeg;base64,] followed by the bytes of the first generated
    image (the word [undefined] when it has none); the other images are
    ignored and an [imageUrl] of the payload is overwritten. *)
Theorem fetchNextScene_imageUrl (history choice prompt_text : list N) (s s2 : S)
    (payload : JSON) (value : option JSON) (first : GeneratedImage)
    (rest : list GeneratedImage) (img : Image) :
  let story_run := run b (generateStory ai history choice) s in
  result story_run = Normal payload →
  get_field payload f_imagePrompt = Normal value →
  ToString ToString_other value = Normal prompt_text →
  on_generateImages b (final story_run) (image_request prompt_text)
    = (Resolved {| generatedImages := Some (first :: rest) |}, s2) →
  image first = Some img →
  ∃ scene_,
    result (run b (fetchNextScene ToString_other ai history choice) s) = Normal scene_
    ∧ scene_ !! js "imageUrl"
      = Some (JString (js "data:image/jpeg;base64,"
                       ++ default (js "undefined") (imageBytes img))).
Proof.
  intros story_run Hs Hg Ht Hi Him. rewrite run_fetchNextScene. cbv zeta.
  fold story_run. rewrite Hs. cbn [result trace final].
  rewrite run_after_story, Hg, Ht. cbv zeta. rewrite Hi. simpl.
  unfold image_of_response. simpl. rewrite Him. simpl.
  eexists. split; [done|]. by rewrite lookup_insert_eq.
Qed.

(** X8.  A first generated image without its [image] object makes
    [fetchNextScene] reject with a [TypeError], after both requests. *)
Theorem fetchNextScene_image_missing (history choice prompt_text : list N) (s s2 : S)
    (payload : JSON) (value : option JSON) (rest : list GeneratedImage) :
  let story_run := run b (generateStory ai history choice) s in
  result story_run = Normal payload →
  get_field payload f_imagePrompt = Normal value →
  ToString ToString_other value = Normal prompt_text →
  on_generateImages b (final story_run) (image_request prompt_text)
    = (Resolved {| generatedImages := Some ({| image := None |} :: rest) |}, s2) →
  result (run b (fetchNextScene ToString_other ai history choice) s) = Throw TypeError
  ∧ network_calls (trace (run b (fetchNextScene ToString_other ai history choice) s))
    = [EvContent ai (story_request history choice);
       EvImages ai (image_request prompt_text)].
Proof.
  intros story_run Hs Hg Ht Hi.
  pose proof (calls_generateStory b ai history choice s) as Hc. fold story_run in Hc.
  rewrite run_fetchNextScene. cbv zeta.
  fold story_run. rewrite Hs. cbn [result trace final].
  rewrite run_after_story, Hg, Ht. cbv zeta. rewrite Hi. simpl.
  split; [done|]. unfold network_calls in *. by rewrite filter_app, Hc.
Qed.



End NarrativeFailures.

Lemma fetchNextScene_text_undefined_witness :
  run textless (fetchNextScene no_coercion sample_ai [] []) tt
  = {| result := Throw TypeError;
       trace := [EvContent sample_ai (story_request [] [])];
       final := tt |}.
Proof.
  apply (fetchNextScene_text_undefined textless no_coercion sample_ai [] [] tt tt).
  reflexivity.
Defined.

Lemma fetchNextScene_unparsable_witness :
  run (scripted (js " ```json{ ") (Resolved sample_image))
    (fetchNextScene no_coercion sample_ai [] []) tt
  = {| result := Throw invalid_story_format;
       trace := [EvContent sample_ai (story_request [] []);
                 EvConsole (js "Failed to parse JSON response:") (trim (js " ```json{ "))];
       final := tt |}.
Proof.
  apply (fetchNextScene_unparsable (scripted (js " ```json{ ") (Resolved sample_image))
           no_coercion sample_ai [] [] (js " ```json{ ") tt tt); reflexivity.
Defined.

Lemma fetchNextScene_null_payload_witness :
  run (scripted (js "null") (Resolved sample_image))
    (fetchNextScene no_coercion sample_ai [] []) tt
  = {| result := Throw TypeError;
       trace := [EvContent sample_ai (story_request [] [])];
       final := tt |}.
Proof.
  apply (fetchNextScene_null_payload (scripted (js "null") (Resolved sample_image))
           no_coercion sample_ai [] [] (js "null") tt tt); reflexivity.
Defined.

Lemma fetchNextScene_image_request_witness :
  ∃ m,
    JSON_parse good_text = Some (JObject m)
    ∧ network_calls (trace (run (scripted good_text (Resolved sample_image))
                              (fetchNextScene no_coercion sample_ai [] []) tt))
      = [EvContent sample_ai (story_request [] []);
         EvImages sample_ai
           {| gi_model := js "imagen-4.0-generate-001";
              prompt := js "a red plain" ++ js ", on the planet Mars, sci-fi, realistic";
              gi_config := {| numberOfImages := 1;
                              outputMimeType := js "image/jpeg";
                              aspectRatio := js "16:9" |} |}].
Proof.
  eexists. split; [vm_compute; reflexivity|].
  eapply (fetchNextScene_image_request (scripted good_text (Resolved sample_image))
            no_coercion sample_ai [] [] good_text (js "a red plain") tt tt);
    vm_compute; reflexivity.
Defined.

Lemma fetchNextScene_missing_imagePrompt_witness :
  network_calls (trace (run (scripted (js "[7]") (Resolved sample_image))
                          (fetchNextScene no_coercion sample_ai [] []) tt))
  = [EvContent sample_ai (story_request [] []);
     EvImages sample_ai (image_request (js "undefined"))]
  ∧ prompt (image_request (js "undefined"))
    = js "undefined, on the planet Mars, sci-fi, realistic".
Proof.
  eapply (fetchNextScene_missing_imagePrompt (scripted (js "[7]") (Resolved sample_image))
            no_coercion sample_ai [] [] (js "[7]") tt tt);
    vm_compute; reflexivity.
Defined.

Lemma fetchNextScene_imageUrl_witness :
  ∃ scene_,
    result (run (scripted good_text
                   (Resolved {| generatedImages :=
                       Some [{| image := Some {| imageBytes := Some (js "AAAA") |} |};
                             {| image := None |}] |}))
              (fetchNextScene no_coercion sample_ai [] []) tt) = Normal scene_
    ∧ scene_ !! js "imageUrl" = Some (JString (js "data:image/jpeg;base64," ++ js "AAAA")).
Proof.
  eapply (fetchNextScene_imageUrl
            (scripted good_text
               (Resolved {| generatedImages :=
                   Some [{| image := Some {| imageBytes := Some (js "AAAA") |} |};
                         {| image := None |}] |}))
            no_coercion sample_ai [] [] (js "a red plain") tt tt _ _ _ _
            {| imageBytes := Some (js "AAAA") |});
    vm_compute; reflexivity.
Defined.

Lemma fetchNextScene_image_missing_witness :
  result (run (scripted good_text
                 (Resolved {| generatedImages := Some [{| image := None |}] |}))
            (fetchNextScene no_coercion sample_ai [] []) tt) = Throw TypeError.
Proof.
  eapply (fetchNextScene_image_missing
            (scripted good_text
               (Resolved {| generatedImages := Some [{| image := None |}] |}))
            no_coercion sample_ai [] [] (js "a red plain") tt tt);
    vm_compute; reflexivity.
Defined.


(** ** More on the markdown fence *)

Lemma trimEnd_app (a b : list N) : trimEnd b ≠ [] → trimEnd (a ++ b) = a ++ trimEnd b.
Proof.
  intros Hb. induction a as [|c a IH]; [done|]. simpl. rewrite IH.
  destruct (a ++ trimEnd b) eqn:E; [|done].
  by apply app_eq_nil in E as [_ ?].
Qed.

Lemma trimStart_app (a b : list N) : trimStart a ≠ [] → trimStart (a ++ b) = trimStart a ++ b.
Proof.
  induction a as [|c a IH]; [done|]. simpl.
  destruct (is_js_ws c); [exact IH|done].
Qed.

Lemma JSON_parse_lex (t : list N) (v : JSON) :
  JSON_parse t = Some v →
  ∃ toks, lex LTop t = Some toks ∧ parse_tokens (PValue []) toks = Some v ∧ toks ≠ [].
Proof.
  unfold JSON_parse. destruct (lex LTop t) as [toks|]; [|done]. simpl.
  intros Hv. exists toks. split; [done|]. split; [done|]. by intros ->.
Qed.

Lemma lex_nonempty (t : list N) (toks : list token) :
  lex LTop t = Some toks → toks ≠ [] → t ≠ [].
Proof. intros H Hn ->. simpl in H. by injection H as <-. Qed.

Lemma lex_drop_prefix_None (t tail : list N) (toks : list token) :
  lex LTop t = Some toks → t ≠ [] →
  drop_prefix (js "```json") (t ++ tail) = None.
Proof.
  destruct t as [|c r]; [done|]. intros H _.
  change (drop_prefix (js "```json") ((c :: r) ++ tail))
    with (if 96 =? c then drop_prefix (js "``json") (r ++ tail) else None).
  destruct (N.eqb_spec 96 c) as [<-|]; [|done].
  by rewrite lex_cons in H.
Qed.

Lemma lex_close_tail (t1 : list N) (toks : list token) (lf_close : bool) :
  lex LTop t1 = Some toks →
  lex LTop (replace_fence_close (t1 ++ (if lf_close then [LF] else []) ++ js "```"))
  = Some toks.
Proof.
  intros H1. destruct lf_close; simpl.
  - by rewrite replace_fence_close_lf.
  - destruct t1 as [|c t1 _] using rev_ind; [done|].
    destruct (decide (c = LF)) as [->|Hc].
    + rewrite <- (assoc_L (++)). simpl. rewrite replace_fence_close_lf.
      by rewrite lex_app_json_ws in H1 by (by repeat constructor).
    + rewrite replace_fence_close_bare; [done|].
      intros a0 [_ ?]%app_inj_tail. done.
Qed.

(** X10.  One marker alone is stripped as well: a JSON text behind the
    opening marker only, or in front of the closing marker only, parses to
    the value of the text itself. *)
Theorem single_marker_is_stripped (t : list N) (v : JSON) (lf : bool) :
  JSON_parse t = Some v →
  story_of_response
    {| text := Some (js "```json" ++ (if lf then [LF] else []) ++ t) |} = Ret v
  ∧ story_of_response
      {| text := Some (t ++ (if lf then [LF] else []) ++ js "```") |} = Ret v.
Proof.
  intros (toks & Ht & Hv & Hn)%JSON_parse_lex.
  unfold story_of_response, parse_story_text, JSON_parse. cbn [text]. split.
  - pose proof (lex_trimEnd _ _ _ Ht) as Hte.
    pose proof (lex_nonempty _ _ Hte Hn) as Hne.
    assert (trim (js "```json" ++ (if lf then [LF] else []) ++ t)
            = js "```json" ++ (if lf then [LF] else []) ++ trimEnd t) as ->.
    { unfold trim.
      assert (trimStart (js "```json" ++ (if lf then [LF] else []) ++ t)
              = js "```json" ++ (if lf then [LF] else []) ++ t) as -> by done.
      rewrite !(assoc_L (++)). rewrite trimEnd_app by done. done. }
    assert (∃ u, replace_fence_open (js "```json" ++ (if lf then [LF] else []) ++ trimEnd t) = u
                 ∧ lex LTop u = Some toks) as (u & -> & Hu).
    { destruct lf.
      - by exists (trimEnd t).
      - unfold replace_fence_open. simpl.
        destruct (trimEnd t) as [|c r]; [done|].
        destruct (N.eqb_spec c LF) as [->|]; [|by exists (c :: r)].
        exists r. split; [done|]. by rewrite lex_json_ws_cons in Hte. }
    rewrite (lex_replace_fence_close _ _ _ Hu), Hu. simpl. by rewrite Hv.
  - pose proof (lex_trimStart _ _ Ht) as Hts.
    pose proof (lex_nonempty _ _ Hts Hn) as Hne.
    assert (trim (t ++ (if lf then [LF] else []) ++ js "```")
            = trimStart t ++ (if lf then [LF] else []) ++ js "```") as ->.
    { unfold trim. rewrite trimStart_app by done.
      change (js "```") with ([ch "`"; ch "`"] ++ [ch "`"]).
      rewrite !(assoc_L (++)). by apply trimEnd_snoc. }
    assert (replace_fence_open (trimStart t ++ (if lf then [LF] else []) ++ js "```")
            = trimStart t ++ (if lf then [LF] else []) ++ js "```") as ->.
    { unfold replace_fence_open. by rewrite (lex_drop_prefix_None _ _ _ Hts Hne). }
    rewrite (lex_close_tail _ _ lf Hts). simpl. by rewrite Hv.
Qed.

Lemma single_marker_is_stripped_witness :
  story_of_response {| text := Some (js "```json" ++ [LF] ++ js "[1, 2] ") |}
    = Ret (JArray [JNumber (js "1"); JNumber (js "2")])
  ∧ story_of_response {| text := Some (js "[1, 2] " ++ [LF] ++ js "```") |}
    = Ret (JArray [JNumber (js "1"); JNumber (js "2")]).
Proof.
  apply (single_marker_is_stripped (js "[1, 2] ")
           (JArray [JNumber (js "1"); JNumber (js "2")]) true).
  reflexivity.
Defined.

Lemma replace_fence_close_head (c : N) (r : list N) :
  replace_fence_close (c :: r) = [] ∨ ∃ r', replace_fence_close (c :: r) = c :: r'.
Proof.
  rewrite replace_fence_close_cons. destruct (fence_close_here _); eauto.
Qed.

(** X11.  A response that starts with a backtick but not with the marker
    [```json] (a bare fence, another language tag, upper case) is never
    accepted: the text is logged and the call rejects. *)
Theorem other_fence_is_rejected (t r : list N) :
  trim t = ch "`" :: r →
  drop_prefix (js "```json") (trim t) = None →
  story_of_response {| text := Some t |}
  = Console_error (js "Failed to parse JSON response:") (trim t)
      (Fail invalid_story_format).
Proof.
  intros Ht Hd. unfold story_of_response, parse_story_text. simpl.
  assert (replace_fence_open (trim t) = trim t) as ->
    by (unfold replace_fence_open; by rewrite Hd).
  assert (JSON_parse (replace_fence_close (trim t)) = None) as ->; [|done].
  rewrite Ht.
  destruct (replace_fence_close_head (ch "`") r) as [-> | [r' ->]]; done.
Qed.

Lemma other_fence_is_rejected_witness :
  story_of_response {| text := Some (js "```" ++ [LF] ++ js "{}" ++ [LF] ++ js "```") |}
  = Console_error (js "Failed to parse JSON response:")
      (trim (js "```" ++ [LF] ++ js "{}" ++ [LF] ++ js "```"))
      (Fail invalid_story_format).
Proof.
  apply (other_fence_is_rejected (js "```" ++ [LF] ++ js "{}" ++ [LF] ++ js "```")
           (js "``" ++ [LF] ++ js "{}" ++ [LF] ++ js "```")); reflexivity.
Defined.

(** X12.  The two replacements change nothing in a text that neither
    starts with [```json] nor ends with three backticks. *)
Theorem clean_without_markers (t : list N) :
  drop_prefix (js "```json") t = None →
  (∀ a, t ≠ a ++ js "```") →
  replace_fence_close (replace_fence_open t) = t.
Proof.
  intros Hd Hs.
  assert (replace_fence_open t = t) as ->
    by (unfold replace_fence_open; by rewrite Hd).
  clear Hd. induction t as [|c r IH]; [done|].
  rewrite replace_fence_close_cons.
  destruct (fence_close_here (c :: r)) eqn:Hf.
  - apply fence_close_here_cases in Hf as [Hf|Hf].
    + destruct (Hs [LF]). by rewrite Hf.
    + by destruct (Hs []).
  - rewrite IH; [done|]. intros a ->. by apply (Hs (c :: a)).
Qed.

Lemma clean_without_markers_witness :
  replace_fence_close (replace_fence_open (js "`` {} ``")) = js "`` {} ``".
Proof.
  apply (clean_without_markers (js "`` {} ``")); [reflexivity|].
  intros a Ha. apply (f_equal reverse) in Ha. rewrite reverse_app in Ha.
  vm_compute in Ha. discriminate Ha.
Defined.

(** ** What the panel shows *)

Lemma flat_map_imap {A B C : Type} (f : B → list C) (g : nat → A → B)
    (h : nat → A → C) (l : list A) :
  (∀ i a, f (g i a) = [h i a]) → flat_map f (imap g l) = imap h l.
Proof.
  intros H. revert g h H. induction l as [|a l IH]; intros g h H; [done|].
  simpl. rewrite H. simpl. f_equal. apply IH. intros i b. apply H.
Qed.

Lemma imap_id {A : Type} (l : list A) : imap (λ _ a, a) l = l.
Proof. induction l as [|a l IH]; [done|]. simpl. f_equal. exact IH. Qed.

Lemma choices_panel_buttons (loading : bool) (s : Scene) :
  flat_map offered_choices (choices_panel loading s)
  = (if gameOver s then [] else choices s)
  ∧ flat_map choice_buttons (choices_panel loading s)
    = imap (λ i c, (Some i, [js "> " ++ c], loading))
        (if gameOver s then [] else choices s).
Proof.
  unfold choices_panel.
  destruct (gameOver s); [by rewrite andb_false_r|].
  destruct (choices s) as [|c cs]; [done|].
  rewrite bool_decide_eq_true_2 by (simpl; lia).
  generalize (c :: cs). intros l.
  cbn [andb negb flat_map offered_choices choice_buttons el app].
  rewrite !app_nil_r. split.
  - rewrite (flat_map_imap offered_choices (choice_button loading) (λ _ c, c)) by done.
    apply imap_id.
  - by rewrite (flat_map_imap choice_buttons (choice_button loading)
               (λ i c, (Some i, [js "> " ++ c], loading))).
Qed.

Lemma inventory_panel_no_choice (items : list (list N)) :
  choice_buttons (inventory_panel items) = [].
Proof.
  destruct items as [|item items]; [done|].
  unfold inventory_panel. generalize (item :: items). intros l. simpl.
  apply flat_map_nil, Forall_forall.
  by intros ? (i & e & -> & _)%elem_of_lookup_imap.
Qed.

Lemma log_panel_no_choice (log : list StoryLogEntry) :
  choice_buttons (log_panel log) = [].
Proof.
  destruct log as [|entry log]; [done|].
  unfold log_panel. generalize (reverse (entry :: log)). intros l. simpl.
  apply flat_map_nil, Forall_forall.
  by intros ? (e & -> & _)%list_elem_of_fmap.
Qed.

(** X13.  The panel offers the choices of the current scene, all of them
    and in their order, each on an enabled button keyed by its index and
    labelled [> choice], when it is not loading and the scene is not over;
    in every other state it offers none. *)
Theorem GameUI_offered_choices (p : GameUIProps) :
  let visible :=
    if isLoading p then []
    else match scene p with
         | Some s => if gameOver s then [] else choices s
         | None => []
         end in
  offered_choices (GameUI p) = visible
  ∧ choice_buttons (GameUI p) = imap (λ i c, (Some i, [js "> " ++ c], false)) visible.
Proof.
  destruct (inventory_panel_plain (inventory p)) as [Hi _].
  destruct (log_panel_plain (storyLog p)) as [Hl _].
  pose proof (inventory_panel_no_choice (inventory p)) as Hi'.
  pose proof (log_panel_no_choice (storyLog p)) as Hl'.
  unfold GameUI, image_panel, story_panel.
  cbn [offered_choices choice_buttons flat_map app el HabitatViewer_render].
  rewrite Hi, Hl, Hi', Hl'.
  destruct (isLoading p); [done|].
  destruct (scene p) as [s|]; [|done].
  destruct (choices_panel_buttons false s) as [H1 H2].
  cbn [offered_choices choice_buttons flat_map app el].
  rewrite H1, H2, !app_nil_r. done.
Qed.

(** X14.  While loading, what is rendered does not depend on the current
    scene: its image, story and choices are all replaced. *)
Theorem GameUI_loading_hides_scene (p : GameUIProps) :
  isLoading p = true →
  GameUI p = GameUI {| scene := None; storyLog := storyLog p; inventory := inventory p;
                       habitatParts := habitatParts p; isLoading := true |}
  ∧ js "Awaiting transmission from Mars..." ∈ texts (GameUI p).
Proof.
  intros H. unfold GameUI, image_panel, story_panel. rewrite H. split; [done|].
  cbn [texts flat_map el]. set_solver.
Qed.

Lemma GameUI_loading_hides_scene_witness :
  let s := {| story := js "The dome holds."; imagePrompt := js "dome";
              choices := [js "Dig in"]; newItem := None;
              gameOver := false; habitatUpdate := None; imageUrl := js "data:" |} in
  let p := {| scene := Some s; storyLog := []; inventory := [];
              habitatParts := []; isLoading := true |} in
  GameUI p = GameUI {| scene := None; storyLog := []; inventory := [];
                       habitatParts := []; isLoading := true |}
  ∧ js "Awaiting transmission from Mars..." ∈ texts (GameUI p).
Proof.
  intros s p. apply (GameUI_loading_hides_scene p). reflexivity.
Defined.

(** X15.  The mission log shows the newest entry first; every entry is cut
    to its first 100 code units and followed by three dots, also when it is
    shorter.  An empty log shows its placeholder. *)
Theorem log_panel_texts (log : list StoryLogEntry) :
  (log = [] → texts (log_panel log) = [js "Log is empty. The mission has just begun."])
  ∧ (log ≠ [] →
     texts (log_panel log)
     = mjoin ((λ entry, [take 100 (entry_story entry); js "..."]) <$> reverse log)).
Proof.
  split; [by intros ->|]. intros Hne.
  destruct log as [|entry log]; [done|].
  unfold log_panel. generalize (reverse (entry :: log)). intros l.
  cbn [texts el]. induction l as [|e l IH]; [done|].
  simpl. do 2 f_equal. exact IH.
Qed.

Lemma log_panel_texts_witness :
  texts (log_panel [{| entry_id := 0; entry_story := js "Crash." |};
                    {| entry_id := 1; entry_story := js "Dust." |}])
  = [js "Dust."; js "..."; js "Crash."; js "..."].
Proof.
  apply (log_panel_texts [{| entry_id := 0; entry_story := js "Crash." |};
                          {| entry_id := 1; entry_story := js "Dust." |}]).
  discriminate.
Defined.

(** X16.  The inventory shows every item, in order and with its repeats;
    an empty inventory shows its placeholder. *)
Theorem inventory_panel_texts (items : list (list N)) :
  (items = [] → texts (inventory_panel items) = [js "No items collected."])
  ∧ (items ≠ [] → texts (inventory_panel items) = items).
Proof.
  split; [by intros ->|]. intros Hne.
  destruct items as [|item items]; [done|].
  unfold inventory_panel. generalize (item :: items). intros l.
  cbn [texts el].
  rewrite (flat_map_imap texts _ (λ _ a, a)) by done. apply imap_id.
Qed.

Lemma inventory_panel_texts_witness :
  texts (inventory_panel [js "Medkit"; js "Power Cell"; js "Medkit"])
  = [js "Medkit"; js "Power Cell"; js "Medkit"].
Proof.
  apply (inventory_panel_texts [js "Medkit"; js "Power Cell"; js "Medkit"]).
  discriminate.
Defined.

(** ** More on the scene graph *)

Lemma meshes_from_appearance (parts : list HabitatPart) (i : nat) :
  appearance <$> meshes_from i parts = omap part_appearance parts.
Proof.
  revert i. induction parts as [|part rest IH]; intros i; [done|].
  simpl. unfold part_appearance at 1.
  destruct (part_geometry (partType part)) as [g|]; [|apply IH].
  simpl. rewrite IH. f_equal. destruct part as [? ? [] [] []]. done.
Qed.

Lemma meshes_from_length (parts : list HabitatPart) (i : nat) :
  length (meshes_from i parts)
  = length (filter (λ part, recognized_partType (partType part) = true) parts).
Proof.
  pose proof (meshes_from_parts parts i) as H.
  by apply Forall2_length in H.
Qed.

Lemma mount_effect_mounted :
  mounted_viewer (mount_effect true {| next_object_id := 0; sceneRef := None |}).
Proof. exists []. split; [done|]. simpl. split; [done|lia]. Qed.

(** The viewer after its effects is the effect of the last part list on a
    mounted viewer. *)
Lemma HabitatViewer_effects_last (first : list HabitatPart)
    (updates : list (list HabitatPart)) :
  ∃ v parts, mounted_viewer v
             ∧ parts = last (first :: updates)
             ∧ HabitatViewer_effects first updates = parts_effect (default first parts) v.
Proof.
  destruct updates as [|u us _] using rev_ind.
  - exists (mount_effect true {| next_object_id := 0; sceneRef := None |}), (Some first).
    split; [apply mount_effect_mounted|done].
  - exists (HabitatViewer_effects first us), (Some u).
    split; [apply HabitatViewer_effects_mounted|]. split.
    + change (first :: us ++ [u]) with ((first :: us) ++ [u]). by rewrite last_snoc.
    + unfold HabitatViewer_effects. by rewrite foldl_app.
Qed.

(** X17.  What the scene looks like depends on the latest part list only,
    not on the lists before it: the two lights, then the mesh of each part
    with a recognized type, in order; so meshes never pile up, and there are
    as many of them as there are recognized parts. *)
Theorem scene_appearance_history_independent (first : list HabitatPart)
    (updates : list (list HabitatPart)) :
  let latest := default first (last (first :: updates)) in
  ∃ scene_children,
    sceneRef (HabitatViewer_effects first updates) = Some scene_children
    ∧ appearance <$> scene_children
      = (appearance <$> lights) ++ omap part_appearance latest
    ∧ length scene_children
      = (2 + length (filter (λ part, recognized_partType (partType part) = true)
                       latest))%nat.
Proof.
  destruct (HabitatViewer_effects_last first updates) as (v & parts & Hv & -> & ->).
  intros latest. fold latest.
  destruct (parts_effect_mounted latest v Hv) as [-> _].
  eexists. split; [done|]. split.
  - by rewrite fmap_app, meshes_from_appearance.
  - rewrite length_app, meshes_from_length. done.
Qed.

(** X19.  Without a mount node no scene is ever created: every later run
    of the parts effect leaves the viewer as it is, and a download leaves
    the page as it is. *)
Theorem unmounted_viewer_stays_empty (first : list HabitatPart)
    (updates : list (list HabitatPart))
    (STL_binary : list Object3D → list N) (page : Page) :
  HabitatViewer_life false first updates = {| next_object_id := 0; sceneRef := None |}
  ∧ downloadStl STL_binary (HabitatViewer_life false first updates) page = page.
Proof.
  assert (HabitatViewer_life false first updates
          = {| next_object_id := 0; sceneRef := None |}) as ->; [|done].
  unfold HabitatViewer_life. simpl.
  induction updates as [|u us IH]; [done|]. exact IH.
Qed.

Lemma scene_remove_length (children : list Object3D) (o : Object3D) :
  o ∈ children → length (scene_remove children o) = pred (length children).
Proof.
  induction children as [|c r IH]; [by intros ?%elem_of_nil|].
  intros Hin. rewrite scene_remove_cons.
  destruct (Nat.eqb_spec (object_id c) (object_id o)) as [|Hne]; [done|].
  apply elem_of_cons in Hin as [->|Hin]; [done|].
  simpl. rewrite IH by done. destruct r; [by apply elem_of_nil in Hin|done].
Qed.

Lemma clear_parts_bound (fuel : nat) (children : list Object3D) :
  (length children ≤ fuel + 2)%nat → (length (clear_parts fuel children) ≤ 2)%nat.
Proof.
  revert children. induction fuel as [|fuel IH]; intros children Hl; [simpl in *; lia|].
  simpl. destruct (children !! 2%nat) as [o|] eqn:Ho.
  - apply IH. rewrite scene_remove_length by (by eapply list_elem_of_lookup_2).
    apply lookup_lt_Some in Ho. lia.
  - apply lookup_ge_None in Ho. lia.
Qed.

(** X20.  The clearing loop always ends within as many rounds as the scene
    has children, whatever the identities of the objects, with at most two
    children left; a scene of two children or fewer is left as it is. *)
Theorem clear_parts_terminates (children : list Object3D) :
  (length (clear_parts (length children) children) ≤ 2)%nat
  ∧ clear_parts (length children) children !! 2%nat = None
  ∧ ((length children ≤ 2)%nat → clear_parts (length children) children = children).
Proof.
  pose proof (clear_parts_bound (length children) children) as H.
  split; [apply H; lia|]. split.
  - apply lookup_ge_None. apply H. lia.
  - intros Hl. destruct (length children) eqn:E; [done|]. simpl.
    destruct (children !! 2%nat) eqn:Ho; [|done].
    apply lookup_lt_Some in Ho. lia.
Qed.

Lemma clear_parts_terminates_witness :
  clear_parts (length [ambientLight 2]) [ambientLight 2] = [ambientLight 2].
Proof.
  apply (clear_parts_terminates [ambientLight 2]). simpl. lia.
Defined.

(** ** The download *)

Lemma removeChild_fresh (children : list nat) (node : nat) :
  Forall (λ c, c < node)%nat children → removeChild (children ++ [node]) node = children.
Proof.
  induction 1 as [|c r Hc _ IH]; simpl.
  - by rewrite Nat.eqb_refl.
  - destruct (Nat.eqb_spec c node); [lia|]. by rewrite IH.
Qed.

(** X21.  A download hands the user one file, [mars-habitat.stl], holding
    the export of the scene as it is, lights included, typed
    [application/octet-stream]; the link it puts into the page is taken out
    again, so the page body is as before; the object URL it creates is
    never revoked. *)
Theorem downloadStl_one_file (STL_binary : list Object3D → list N) (v : Viewer)
    (page : Page) (scene_children : list Object3D) :
  Forall (λ c, c < next_node_id page)%nat (body_children page) →
  sceneRef v = Some scene_children →
  let blob := {| blob_bytes := STL_binary scene_children;
                 blob_type := js "application/octet-stream" |} in
  let after := downloadStl STL_binary v page in
  body_children after = body_children page
  ∧ downloads after = downloads page ++ [(js "mars-habitat.stl", blob)]
  ∧ object_urls after = object_urls page ++ [blob]
  ∧ Forall (λ c, c < next_node_id after)%nat (body_children after).
Proof.
  intros Hb Hs blob after. unfold after, downloadStl. rewrite Hs. simpl.
  rewrite removeChild_fresh by done. repeat split; try done.
  eapply Forall_impl; [exact Hb|]. simpl. lia.
Qed.

Lemma downloadStl_one_file_witness :
  let page := {| next_node_id := 3; body_children := [0; 2]%nat;
                 object_urls := []; downloads := [] |} in
  let after := downloadStl (λ _, [83; 84; 76]) (HabitatViewer_effects [] []) page in
  body_children after = [0; 2]%nat
  ∧ downloads after
    = [(js "mars-habitat.stl",
        {| blob_bytes := [83; 84; 76]; blob_type := js "application/octet-stream" |})]
  ∧ object_urls after
    = [{| blob_bytes := [83; 84; 76]; blob_type := js "application/octet-stream" |}]
  ∧ Forall (λ c, c < next_node_id after)%nat (body_children after).
Proof.
  intros page after.
  apply (downloadStl_one_file (λ _, [83; 84; 76]) (HabitatViewer_effects [] []) page lights).
  - repeat constructor.
  - reflexivity.
Defined.
